(** * Zipper-Server: the Java knowledge-graph generator (graph_generator.py)

    A shallow embedding of [graph_generator.py]: the accumulation of node and
    edge records over a traversal of parsed Java files, the assembly of the
    containment hierarchy, the split into per-module sub-graphs and the two
    export paths, followed by the properties of the written specification.

    Python values are modelled as the code uses them: [str] as [string],
    the [seen] sets as [gset string], the [parent] dict as
    [gmap string string], and the insertion-ordered [node_map] dict as an
    association list with Python's assignment semantics (a key keeps the
    position of its first insertion, its value is the last one assigned).
    The objects stored in [node_map] are shared: a [children] list holds
    references to other objects of the same dict, so a child is represented
    by its key, the handle of the object it refers to. *)

From stdpp Require Import gmap strings list sorting.
From Stdlib Require Import Ascii String.

(** ** Python string primitives used by the program *)

(** Truthiness of a [str]: only the empty string is falsy. *)
Definition truthy (s : string) : bool := negb (String.eqb s "").

(** Truthiness of a value that is [None] or a [str]. *)
Definition truthy_opt (o : option string) : bool :=
  match o with
  | Some s => truthy s
  | None => false
  end.

(** [s.endswith(suffix)] *)
Definition endswith (suffix s : string) : bool :=
  let n := String.length suffix in
  let m := String.length s in
  (n <=? m)%nat && String.eqb (substring (m - n) n s) suffix.

(** [s.startswith(p)] *)
Definition startswith (p s : string) : bool := String.prefix p s.

(** [s.split(c)[0]]: the text before the first occurrence of the one-character
    separator [c], the whole of [s] when [c] does not occur. *)
Fixpoint split_first (c : ascii) (s : string) : string :=
  match s with
  | EmptyString => EmptyString
  | String a s' => if Ascii.eqb a c then EmptyString else String a (split_first c s')
  end.

(** [s.replace(a, b)] for one-character [a] and [b]. *)
Fixpoint replace_char (a b : ascii) (s : string) : string :=
  match s with
  | EmptyString => EmptyString
  | String x s' => String (if Ascii.eqb x a then b else x) (replace_char a b s')
  end.

(** [s.rstrip(c)] for a one-character [c]. *)
Fixpoint rstrip (c : ascii) (s : string) : string :=
  match s with
  | EmptyString => EmptyString
  | String x s' =>
      match rstrip c s' with
      | EmptyString => if Ascii.eqb x c then EmptyString else String x EmptyString
      | r => String x r
      end
  end.

(** ** The [os.path] interface

    [os.path] is a collaborator of the program, not part of it; the program is
    embedded over any implementation of the four operations it calls. *)
Class OsPath := {
  os_sep : ascii;
  os_join : string → string → string;
  os_abspath : string → string;
  os_relpath : string → string → string
}.

(** ** Data model *)

(** The ["type"] entry of a node dict. *)
Inductive NodeType := TPackage | TFile | TClass | TInterface | TMethod | TField.

(** The ["type"] entry of an edge dict. *)
Inductive EdgeType := EContains | EImport | EExtends | EImplements | ECalls.

#[global] Instance NodeType_eq_dec : EqDecision NodeType.
Proof. solve_decision. Defined.
#[global] Instance EdgeType_eq_dec : EqDecision EdgeType.
Proof. solve_decision. Defined.

(** The ["extends"] entry of a class node: one name for a class declaration,
    a list of names for an interface declaration. *)
Inductive ExtendsAttr := ExtName (n : string) | ExtNames (l : list string).

(** A node dict.  ["id"], ["name"] and ["type"] are always present; every
    other key is optional, [None] standing for an absent key (or for a key
    bound to Python's [None], which [dict.get] does not tell apart). *)
Record Node := mkNode {
  n_id : string;
  n_name : string;
  n_type : NodeType;
  n_path : option string;
  n_package : option string;
  n_file : option string;
  n_extends : option ExtendsAttr;
  n_implements : option (list string);
  n_signature : option string;
  n_class : option string;
  n_return_type : option string;
  n_datatype : option string
}.

(** An edge dict [{"source": .., "target": .., "type": ..}]. *)
Record Edge := mkEdge {
  source : string;
  target : string;
  etype : EdgeType
}.

#[global] Instance ExtendsAttr_eq_dec : EqDecision ExtendsAttr.
Proof. solve_decision. Defined.
#[global] Instance Node_eq_dec : EqDecision Node.
Proof. solve_decision. Defined.
#[global] Instance Edge_eq_dec : EqDecision Edge.
Proof. solve_decision. Defined.

(** ** What the parser collaborator returns (javalang's syntax tree) *)

(** A method invocation: [inv.qualifier] ([None] or a string) and [inv.member]. *)
Record Invocation := mkInv {
  inv_qualifier : option string;
  inv_member : string
}.

(** An element of [cls.body]. *)
Inductive Member :=
| FieldDeclaration (tname : string) (declarators : list string)
| MethodDeclaration (m_name : string) (m_params : list string)
    (m_return_type : option string) (m_body : bool)
    (m_invocations : list Invocation)
| OtherMember.

(** [cls.extends]: [None], one reference type (class declarations) or a list
    of reference types (interface declarations). *)
Inductive ExtendsRef := NoExtends | ExtendsOne (n : string) | ExtendsList (l : list string).

Inductive DeclKind :=
  ClassDeclaration | InterfaceDeclaration | EnumDeclaration | AnnotationDeclaration.

(** A type declaration.  [td_implements] is [cls.implements] with [None] and a
    missing attribute read as the empty list (all three are falsy). *)
Record TypeDecl := mkTypeDecl {
  td_kind : DeclKind;
  td_name : string;
  td_extends : ExtendsRef;
  td_implements : list string;
  td_body : list Member
}.

(** A compilation unit: [tree.package] (its name when present),
    [tree.imports] (their paths) and the type declarations that
    [tree.filter(TypeDeclaration)] enumerates. *)
Record CompilationUnit := mkCU {
  cu_package : option string;
  cu_imports : list string;
  cu_types : list TypeDecl
}.

(** ** The accumulated graph ([nodes], [edges], [seen]) *)

(** The keys of the [seen] dict. *)
Inductive SeenKey := Kpackage | Kfile | Kclass | Kmethod | Kfield.

(** [seen = {'package': set(), 'file': set(), 'class': set(), 'method': set(),
    'field': set()}] *)
Record Seen := mkSeen {
  seen_package : gset string;
  seen_file : gset string;
  seen_class : gset string;
  seen_method : gset string;
  seen_field : gset string
}.

(** [seen[k]] *)
Definition seen_get (k : SeenKey) (s : Seen) : gset string :=
  match k with
  | Kpackage => seen_package s
  | Kfile => seen_file s
  | Kclass => seen_class s
  | Kmethod => seen_method s
  | Kfield => seen_field s
  end.

(** [seen[k].add(x)] *)
Definition seen_add (k : SeenKey) (x : string) (s : Seen) : Seen :=
  match k with
  | Kpackage => mkSeen ({[x]} ∪ seen_package s) (seen_file s) (seen_class s) (seen_method s) (seen_field s)
  | Kfile => mkSeen (seen_package s) ({[x]} ∪ seen_file s) (seen_class s) (seen_method s) (seen_field s)
  | Kclass => mkSeen (seen_package s) (seen_file s) ({[x]} ∪ seen_class s) (seen_method s) (seen_field s)
  | Kmethod => mkSeen (seen_package s) (seen_file s) (seen_class s) ({[x]} ∪ seen_method s) (seen_field s)
  | Kfield => mkSeen (seen_package s) (seen_file s) (seen_class s) (seen_method s) ({[x]} ∪ seen_field s)
  end.

(** The three locals of [main] that the traversal loop updates. *)
Record Graph := mkGraph {
  nodes : list Node;
  edges : list Edge;
  seen : Seen
}.

(** The state [main] starts from (lines 28-30). *)
Definition empty_graph : Graph := mkGraph [] [] (mkSeen ∅ ∅ ∅ ∅ ∅).

(** [edges.append(e)] *)
Definition add_edge (e : Edge) (g : Graph) : Graph :=
  mkGraph (nodes g) (edges g ++ [e]) (seen g).

(** The recurring statement
    [if n['id'] not in seen[k]: nodes.append(n); seen[k].add(n['id'])]. *)
Definition append_unseen (k : SeenKey) (n : Node) (g : Graph) : Graph :=
  if decide (n_id n ∈ seen_get k (seen g)) then g
  else mkGraph (nodes g ++ [n]) (edges g) (seen_add k (n_id n) (seen g)).

(** *** The node dicts the program builds *)

(** [{"id": path, "name": fname, "type": "file", "path": path}] *)
Definition file_node (path fname : string) : Node :=
  mkNode path fname TFile (Some path) None None None None None None None None.

(** [{"id": pkg, "name": pkg, "type": "package"}] *)
Definition package_node (pkg : string) : Node :=
  mkNode pkg pkg TPackage None None None None None None None None None.

(** [{"id": pid, "name": parent, "type": "class"}] and its ["interface"]
    twin: the records synthesised for an inherited name. *)
Definition stub_node (id name : string) (t : NodeType) : Node :=
  mkNode id name t None None None None None None None None None.

(** [{"id": fid, "name": d.name, "type": "field", "datatype": tname,
    "class": fqcn}] *)
Definition field_node (fid name tname fqcn : string) : Node :=
  mkNode fid name TField None None None None None None (Some fqcn) None (Some tname).

(** [{"id": mid, "name": m.name, "type": "method", "signature": sig,
    "class": fqcn, "return_type": ..}] *)
Definition method_node (mid name sig fqcn rt : string) : Node :=
  mkNode mid name TMethod None None None None None (Some sig) (Some fqcn) (Some rt) None.

(** The ["extends"] entry of a class record (lines 64-68): set only when
    [cls.extends] is truthy. *)
Definition extends_attr (x : ExtendsRef) : option ExtendsAttr :=
  match x with
  | NoExtends => None
  | ExtendsOne n => Some (ExtName n)
  | ExtendsList [] => None
  | ExtendsList l => Some (ExtNames l)
  end.

(** The ["implements"] entry (lines 69-70): set only for a non-empty list. *)
Definition implements_attr (l : list string) : option (list string) :=
  match l with
  | [] => None
  | _ => Some l
  end.

(** [entry] of lines 63-70. *)
Definition class_entry (fqcn cls_name : string) (pkg : option string)
    (path : string) (cls : TypeDecl) : Node :=
  mkNode fqcn cls_name TClass None pkg (Some path)
         (extends_attr (td_extends cls)) (implements_attr (td_implements cls))
         None None None None.

(** ** Graph Builder (lines 13-121) *)

(** The expression [pkg + "." + name if pkg else name], written out at lines
    61, 79, 86 and 94. *)
Definition qualify (pkg : option string) (name : string) : string :=
  match pkg with
  | Some p => if truthy p then p +:+ "." +:+ name else name
  | None => name
  end.

(** The isinstance test of lines 22-23. *)
Definition is_class_or_interface (t : TypeDecl) : bool :=
  match td_kind t with
  | ClassDeclaration | InterfaceDeclaration => true
  | _ => false
  end.

(** [parse_java_file]: [parse filepath] is the outcome of reading and parsing
    the file, [None] when either raises.  The first component of the result
    is Python's [pkg]: [None] on failure, the package name or [""].  The
    line [Skipping <filepath>: parse error: ..] that a failure prints on
    [stderr] is not part of the model. *)
Definition parse_java_file (parse : string → option CompilationUnit)
    (filepath : string) : option string * list string * list TypeDecl :=
  match parse filepath with
  | None => (None, [], [])
  | Some tree =>
      (Some (default "" (cu_package tree)),
       cu_imports tree,
       filter (λ t, is_class_or_interface t = true) (cu_types tree))
  end.

(** One superclass reference (lines 78-83 and 85-90). *)
Definition extends_step (pkg : option string) (fqcn : string) (g : Graph)
    (parent : string) : Graph :=
  let pid := qualify pkg parent in
  add_edge (mkEdge fqcn pid EExtends)
           (append_unseen Kclass (stub_node pid parent TClass) g).

(** One interface reference (lines 93-98). *)
Definition implements_step (pkg : option string) (fqcn : string) (g : Graph)
    (name : string) : Graph :=
  let cid := qualify pkg name in
  add_edge (mkEdge fqcn cid EImplements)
           (append_unseen Kclass (stub_node cid name TInterface) g).

(** One declarator of a field declaration (lines 104-108). *)
Definition field_step (fqcn tname : string) (g : Graph) (d : string) : Graph :=
  let fid := fqcn +:+ "." +:+ d in
  add_edge (mkEdge fqcn fid EContains)
           (append_unseen Kfield (field_node fid d tname fqcn) g).

(** One invocation in a method (lines 119-121). *)
Definition call_step (mid : string) (g : Graph) (inv : Invocation) : Graph :=
  let qual := if truthy_opt (inv_qualifier inv)
              then default "" (inv_qualifier inv) +:+ "." else "" in
  add_edge (mkEdge mid (qual +:+ inv_member inv) ECalls) g.

(** One element of [cls.body] (lines 100-121). *)
Definition member_step (fqcn : string) (g : Graph) (m : Member) : Graph :=
  match m with
  | FieldDeclaration tname declarators =>
      fold_left (field_step fqcn tname) declarators g
  | MethodDeclaration name params rt body invs =>
      let sig := name +:+ "(" +:+ String.concat "," params +:+ ")" in
      let mid := fqcn +:+ "." +:+ sig in
      let g1 := append_unseen Kmethod
                  (method_node mid name sig fqcn (default "void" rt)) g in
      let g2 := add_edge (mkEdge fqcn mid EContains) g1 in
      if body then fold_left (call_step mid) invs g2 else g2
  | OtherMember => g
  end.

(** One type declaration (lines 59-121). *)
Definition type_step (pkg : option string) (path : string) (g : Graph)
    (cls : TypeDecl) : Graph :=
  let cls_name := td_name cls in
  let fqcn := qualify pkg cls_name in
  let g1 := append_unseen Kclass (class_entry fqcn cls_name pkg path cls) g in
  let g2 := add_edge (mkEdge path fqcn EContains) g1 in
  let g3 := match td_extends cls with
            | NoExtends => g2
            | ExtendsList l => fold_left (extends_step pkg fqcn) l g2
            | ExtendsOne parent => extends_step pkg fqcn g2 parent
            end in
  let g4 := fold_left (implements_step pkg fqcn) (td_implements cls) g3 in
  fold_left (member_step fqcn) (td_body cls) g4.

(** One import (lines 53-57). *)
Definition import_step (path : string) (g : Graph) (imp : string) : Graph :=
  add_edge (mkEdge path imp EImport)
           (append_unseen Kpackage (package_node imp) g).

(** Lines 46-51. *)
Definition package_step (pkg : option string) (path : string) (g : Graph) : Graph :=
  match pkg with
  | Some p =>
      if truthy p
      then add_edge (mkEdge p path EContains)
                    (append_unseen Kpackage (package_node p) g)
      else g
  | None => g
  end.

Section Traversal.
Context `{OsPath}.

(** The source files are what [parse] makes of them. *)
Variable parse : string → option CompilationUnit.

(** The body of [for fname in files] (lines 38-121). *)
Definition file_step (root : string) (g : Graph) (fname : string) : Graph :=
  if negb (endswith ".java" fname) then g
  else
    let path := os_join root fname in
    let '(pkg, imports, types) := parse_java_file parse path in
    let g1 := append_unseen Kfile (file_node path fname) g in
    let g2 := package_step pkg path g1 in
    let g3 := fold_left (import_step path) imports g2 in
    fold_left (type_step pkg path) types g3.

(** The body of [for root, dirs, files in os.walk(src_dir)]. *)
Definition dir_step (g : Graph) (entry : string * list string) : Graph :=
  fold_left (file_step entry.1) entry.2 g.

(** The traversal loop (lines 35-121).  [walk] lists the [(root, files)]
    pairs in the order [os.walk] yields them, the excluded directories
    already pruned. *)
Definition traverse (walk : list (string * list string)) : Graph :=
  fold_left dir_step walk empty_graph.
End Traversal.

(** ** Insertion-ordered dicts

    A Python [dict] iterates its keys in the order of their first insertion;
    assigning to a key that is present replaces the value where it stands. *)
Section Dict.
Context {V : Type}.

(** [d[k] = v] *)
Fixpoint dict_set (k : string) (v : V) (d : list (string * V)) : list (string * V) :=
  match d with
  | [] => [(k, v)]
  | (k', v') :: d' =>
      if decide (k = k') then (k, v) :: d' else (k', v') :: dict_set k v d'
  end.

(** [d.get(k)] *)
Fixpoint dict_get (k : string) (d : list (string * V)) : option V :=
  match d with
  | [] => None
  | (k', v') :: d' => if decide (k = k') then Some v' else dict_get k d'
  end.

(** The keys, in iteration order. *)
Definition dict_keys (d : list (string * V)) : list string := d.*1.

(** [k in d] *)
Definition dict_mem (k : string) (d : list (string * V)) : bool :=
  bool_decide (k ∈ dict_keys d).

(** In-place mutation of the object stored under [k]; no effect when [k]
    is absent. *)
Fixpoint dict_alter (f : V → V) (k : string) (d : list (string * V)) : list (string * V) :=
  match d with
  | [] => []
  | (k', v') :: d' =>
      if decide (k = k') then (k', f v') :: d' else (k', v') :: dict_alter f k d'
  end.
End Dict.

(** ** Hierarchy Assembler (lines 122-134) *)

(** An object of [node_map]: [dict(n, children=[])].  The [children] list
    holds references to objects of the same dict, kept as their keys. *)
Record NodeObj := mkObj {
  o_node : Node;
  o_children : list string
}.

(** The assembler's state: [node_map] and [parent]. *)
Record Forest := mkForest {
  node_map : list (string * NodeObj);
  parent : gmap string string
}.

(** [{n['id']: dict(n, children=[]) for n in nodes}] (line 123) *)
Definition build_node_map (ns : list Node) : list (string * NodeObj) :=
  fold_left (λ d n, dict_set (n_id n) (mkObj n []) d) ns [].

(** [node_map[src]['children'].append(node_map[tgt])] *)
Definition append_child (src tgt : string) (d : list (string * NodeObj))
    : list (string * NodeObj) :=
  dict_alter (λ o, mkObj (o_node o) (o_children o ++ [tgt])) src d.

(** The body of [for e in edges] (lines 126-130). *)
Definition link_step (f : Forest) (e : Edge) : Forest :=
  if decide (etype e = EContains) then
    let src := source e in
    let tgt := target e in
    if dict_mem src (node_map f) && dict_mem tgt (node_map f)
    then mkForest (append_child src tgt (node_map f)) (<[tgt := src]> (parent f))
    else f
  else f.

(** Lines 123-130. *)
Definition assemble (ns : list Node) (es : list Edge) : Forest :=
  fold_left link_step es (mkForest (build_node_map ns) ∅).

(** [node_map[n]['type'] == "package"] for a key [n] of [node_map]. *)
Definition has_type (d : list (string * NodeObj)) (t : NodeType) (k : string) : bool :=
  match dict_get k d with
  | Some o => bool_decide (n_type (o_node o) = t)
  | None => false
  end.

(** [[node_map[n] for n in node_map if n not in parent]] (line 133), the
    objects given by their keys. *)
Definition parentless (f : Forest) : list string :=
  filter (λ k, parent f !! k = None) (dict_keys (node_map f)).

(** [[node_map[n] for n in node_map if n not in parent and
    node_map[n]['type'] == "package"]] (line 131) *)
Definition package_roots (f : Forest) : list string :=
  filter (λ k, has_type (node_map f) TPackage k = true) (parentless f).

(** [roots] after lines 131-133. *)
Definition roots (f : Forest) : list string :=
  match package_roots f with
  | [] => parentless f
  | r => r
  end.

(** [rels] (line 134); the same comprehension gives [sub_edges] (line 207). *)
Definition rels (es : list Edge) : list Edge :=
  filter (λ e, etype e ≠ EContains) es.

(** The children of the object stored under [k] ([[]] for no object). *)
Definition children_of (d : list (string * NodeObj)) (k : string) : list string :=
  match dict_get k d with
  | Some o => o_children o
  | None => []
  end.

(** [c] is an element of the [children] list of the object under [p]. *)
Definition child (d : list (string * NodeObj)) (p c : string) : Prop :=
  c ∈ children_of d p.

(** The objects that serialising the list [rs] of objects visits: the objects
    of [rs] and, recursively, those of their [children] lists. *)
Inductive exported (d : list (string * NodeObj)) (rs : list string) : string → Prop :=
| exported_root r : r ∈ rs → exported d rs r
| exported_child p c : exported d rs p → child d p c → exported d rs c.

(** ** Files written and exceptions raised *)

(** What [json.dump] is handed, or nothing for a file that was opened for
    writing and closed again with nothing dumped.  A hierarchy is a list of
    objects of a node map: the handles with the map they point into.  The
    serialiser is a collaborator of the program: a file is represented by the
    object graph it is given, not by the text it makes of it (nor by its
    refusal of a circular graph). *)
Inductive Document :=
| ModuleDoc (hierarchy : list string) (store : list (string * NodeObj))
            (doc_edges : list Edge)
| IndexDoc (modules : list string)
| EmptyDoc.

Inductive Exception :=
| NameError (name : string)
| KeyError (key : string)
| FileNotFoundError (path : string).

Inductive Result (A : Type) :=
| Ok (a : A)
| Raise (e : Exception).
Arguments Ok {A} a.
Arguments Raise {A} e.

(** The files written so far, oldest first. *)
Definition Files := list (string * Document).

(** A computation that writes files and may raise. *)
Definition IO (A : Type) : Type := Files → Files * Result A.

#[global] Instance IO_ret : MRet IO := λ A a fs, (fs, Ok a).
#[global] Instance IO_bind : MBind IO := λ A B k m fs,
  match m fs with
  | (fs', Ok a) => k a fs'
  | (fs', Raise e) => (fs', Raise e)
  end.

Definition raise {A} (e : Exception) : IO A := λ fs, (fs, Raise e).

(** [with open(path, 'w') as f: json.dump(doc, f)]: the file [path] now
    holds [doc]. *)
Definition write_json (path : string) (doc : Document) : IO unit :=
  λ fs, (fs ++ [(path, doc)], Ok tt).

(** [os.makedirs(path, exist_ok=True)] (line 139).  The empty path names no
    directory: [mkdir] refuses it with [FileNotFoundError], whatever the
    file system holds.  For any other path the call succeeds or fails with
    the state of the file system (a missing permission, a file of that
    name), which is not part of the model: it is taken to succeed. *)
Definition makedirs (path : string) : IO unit :=
  if decide (path = "") then raise (FileNotFoundError path) else mret tt.

(** A [for] loop whose body may raise: the first exception ends it. *)
Fixpoint for_each {A S} (body : S → A → IO S) (l : list A) (s : S) : IO S :=
  match l with
  | [] => mret s
  | x :: l' => s' ← body s x; for_each body l' s'
  end.

(** The order of [str]: by code points, a proper prefix first. *)
Definition str_le (a b : string) : Prop := String.leb a b = true.

#[global] Instance str_le_dec (a b : string) : Decision (str_le a b).
Proof. unfold str_le. apply _. Defined.

(** [sorted(l)] on strings. *)
Definition sorted (l : list string) : list string := merge_sort str_le l.

(** ** Module Partitioner and export (lines 136-226) *)

Section Main.
Context `{OsPath}.

(** [_module_id] (lines 144-172); [src_dir] is the local of [main] the
    closure captures. *)
Definition _module_id (src_dir : string) (node : Node) : string :=
  match n_type node with
  | TPackage => split_first "." (n_id node)
  | TFile =>
      let fpath := os_abspath (n_id node) in
      let rel := os_relpath fpath src_dir in
      if startswith ".." rel then "root" else split_first os_sep rel
  | _ =>
      if truthy_opt (n_package node)
      then split_first "." (default "" (n_package node))
      else
        let fpath := if truthy_opt (n_file node) then n_file node else n_path node in
        if truthy_opt fpath
        then split_first os_sep (os_relpath (default "" fpath) src_dir)
        else "root"
  end.

(** [top_pkg_map.setdefault(mod, []).append(id)] *)
Definition setdefault_append (md id : string) (d : list (string * list string))
    : list (string * list string) :=
  if dict_mem md d then dict_alter (λ l, l ++ [id]) md d
  else dict_set md [id] d.

(** [top_pkg_map] after lines 175-178. *)
Definition top_pkg_map (src_dir : string) (ns : list Node) : list (string * list string) :=
  fold_left (λ d n, setdefault_append (_module_id src_dir n) (n_id n) d) ns [].

(** [module_nodes] (line 189) *)
Definition module_nodes (src_dir : string) (ns : list Node) (top_pkg : string) : list Node :=
  filter (λ n, _module_id src_dir n = top_pkg) ns.

(** [module_node_ids] (line 190) *)
Definition module_node_ids (src_dir : string) (ns : list Node) (top_pkg : string) : gset string :=
  list_to_set (n_id <$> module_nodes src_dir ns top_pkg).

(** [module_edges] (lines 192-195) *)
Definition module_edges (src_dir : string) (ns : list Node) (es : list Edge)
    (top_pkg : string) : list Edge :=
  filter (λ e, source e ∈ module_node_ids src_dir ns top_pkg
               ∧ target e ∈ module_node_ids src_dir ns top_pkg) es.

(** The body of [for e in module_edges] (lines 201-204).  The two
    subscriptions [mod_node_map[s]] and [mod_node_map[t]] are unguarded: a
    missing key raises [KeyError]. *)
Definition mod_link_step (f : Forest) (e : Edge) : IO Forest :=
  if decide (etype e = EContains) then
    let s := source e in
    let t := target e in
    if dict_mem s (node_map f) then
      if dict_mem t (node_map f) then
        mret (mkForest (append_child s t (node_map f)) (<[t := s]> (parent f)))
      else raise (KeyError t)
    else raise (KeyError s)
  else mret f.

(** [mod_node_map] and [mod_parent] after lines 198-204. *)
Definition mod_assemble (mns : list Node) (mes : list Edge) : IO Forest :=
  for_each mod_link_step mes (mkForest (build_node_map mns) ∅).

(** [sub_hierarchy] (line 206): [module_node_ids] is a [set], iterated in
    an order the language leaves open; [elements] fixes one. *)
Definition sub_hierarchy (ids : gset string) (f : Forest) : list string :=
  filter (λ nid, parent f !! nid = None) (elements ids).

(** The body of [for top_pkg, pkg_ids in top_pkg_map.items()] (lines
    189-214), [written_modules] being the loop state. *)
Definition module_step (src_dir out_dir : string) (ns : list Node) (es : list Edge)
    (written_modules : list string) (item : string * list string) : IO (list string) :=
  let top_pkg := item.1 in
  let mns := module_nodes src_dir ns top_pkg in
  let ids := module_node_ids src_dir ns top_pkg in
  let mes := module_edges src_dir ns es top_pkg in
  f ← mod_assemble mns mes;
  let fname := replace_char "." "_" top_pkg +:+ ".json" in
  write_json (os_join out_dir fname)
             (ModuleDoc (sub_hierarchy ids f) (node_map f) (rels mes));;
  mret (written_modules ++ [top_pkg]).

Variable parse : string → option CompilationUnit.

(** [os.walk(src_dir)], the excluded directories pruned (lines 35-36). *)
Variable os_walk : string → list (string * list string).

(** [main(src_dir, output_file)].  The modular branch first creates the
    output directory (line 139), which fails when stripping the separators
    leaves nothing of the target.  The [else] branch (lines 223-226) opens
    the output file and then evaluates the name [result], which neither
    [main] nor the module ever binds. *)
Definition main (src_dir output_file : string) : IO unit :=
  let src_dir := os_abspath src_dir in
  let g := traverse parse (os_walk src_dir) in
  let f := assemble (nodes g) (edges g) in
  let roots := roots f in
  let rels := rels (edges g) in
  if negb (endswith ".json" output_file) then
    let out_dir := rstrip os_sep output_file in
    makedirs out_dir;;
    written_modules ←
      for_each (module_step src_dir out_dir (nodes g) (edges g))
               (top_pkg_map src_dir (nodes g)) [];
    write_json (os_join out_dir "index.json") (IndexDoc (sorted written_modules))
  else
    write_json output_file EmptyDoc;;
    raise (NameError "result").
End Main.

(** ** A POSIX [os.path]

    [posixpath] on absolute, normalised paths, where [abspath] changes
    nothing.  Only the worked examples use it. *)

(** [s.split(c)] *)
Fixpoint split_on (c : ascii) (s : string) : list string :=
  match s with
  | EmptyString => [EmptyString]
  | String a s' =>
      if Ascii.eqb a c then EmptyString :: split_on c s'
      else match split_on c s' with
           | [] => [String a EmptyString]
           | w :: ws => String a w :: ws
           end
  end.

(** The path components [[x for x in p.split('/') if x]]. *)
Definition components (p : string) : list string :=
  filter (λ x, x ≠ "") (split_on "/" p).

(** Drops the longest common prefix of two component lists. *)
Fixpoint strip_common (start path : list string) : list string * list string :=
  match start, path with
  | a :: start', b :: path' =>
      if decide (a = b) then strip_common start' path' else (start, path)
  | _, _ => (start, path)
  end.

Definition posix_join (a b : string) : string :=
  if startswith "/" b then b
  else if negb (truthy a) || endswith "/" a then a +:+ b
  else a +:+ "/" +:+ b.

Definition posix_relpath (path start : string) : string :=
  let '(s, p) := strip_common (components start) (components path) in
  match (replicate (List.length s) ".." ++ p)%list with
  | [] => "."
  | rel => String.concat "/" rel
  end.

#[global] Instance posix : OsPath := {|
  os_sep := "/";
  os_join := posix_join;
  os_abspath := λ p, p;
  os_relpath := posix_relpath
|}.

(** ** Auxiliary notions for the statements *)

(** The edges that the assembler acts on: [contains] edges with both
    endpoints among the node ids (the guard of line 128). *)
Definition links (ns : list Node) (e : Edge) : Prop :=
  etype e = EContains ∧ source e ∈ n_id <$> ns ∧ target e ∈ n_id <$> ns.

#[global] Instance links_dec ns e : Decision (links ns e).
Proof. unfold links. apply _. Defined.

(** [exported_path d rs l k]: serialising [rs] reaches the object [k] along
    [l], the objects passed from a root down to [k], both included. *)
Inductive exported_path (d : list (string * NodeObj)) (rs : list string)
    : list string → string → Prop :=
| path_root r : r ∈ rs → exported_path d rs [r] r
| path_child l p c :
    exported_path d rs l p → child d p c → exported_path d rs (l ++ [c]) c.

(** ** Worked inputs *)

(** A class declaration with no members and no supertypes. *)
Definition plain_class (name : string) : TypeDecl :=
  mkTypeDecl ClassDeclaration name NoExtends [] [].

(** Two files of the default package that both declare [class Foo]. *)
Definition twins_parse (p : string) : option CompilationUnit :=
  if decide (p = "/src/app/a/Foo.java") then Some (mkCU None [] [plain_class "Foo"])
  else if decide (p = "/src/app/b/Foo.java") then Some (mkCU None [] [plain_class "Foo"])
  else None.

Definition twins_walk (d : string) : list (string * list string) :=
  [(d, []); (d +:+ "/app/a", ["Foo.java"]); (d +:+ "/app/b", ["Foo.java"])].

(** [package a; import a.Base; class Foo extends Base { int x; }] in
    [/src/a/Foo.java]. *)
Definition shadow_cls : TypeDecl :=
  mkTypeDecl ClassDeclaration "Foo" (ExtendsOne "Base") []
             [FieldDeclaration "int" ["x"]].

Definition shadow_cu : CompilationUnit :=
  mkCU (Some "a") ["a.Base"] [shadow_cls].

Definition shadow_parse (p : string) : option CompilationUnit :=
  if decide (p = "/src/a/Foo.java") then Some shadow_cu else None.

Definition shadow_walk (d : string) : list (string * list string) :=
  [(d, []); (d +:+ "/a", ["Foo.java"])].

(** [import app.util.Helper; class Main {}] in [/src/app/Main.java], a file
    of the default package. *)
Definition app_parse (p : string) : option CompilationUnit :=
  if decide (p = "/src/app/Main.java")
  then Some (mkCU None ["app.util.Helper"] [plain_class "Main"])
  else None.

Definition app_walk (d : string) : list (string * list string) :=
  [(d, []); (d +:+ "/app", ["Main.java"])].

(** A directory with [Bad.java], which the parser rejects, and [Good.java],
    which holds [class Good {}]. *)
Definition mixed_parse (p : string) : option CompilationUnit :=
  if decide (p = "/src/a/Good.java") then Some (mkCU None [] [plain_class "Good"])
  else None.

Definition mixed_walk (d : string) : list (string * list string) :=
  [(d, []); (d +:+ "/a", ["Bad.java"; "Good.java"])].

(** ** Auxiliary notions for the Graph Builder *)

#[global] Instance SeenKey_eq_dec : EqDecision SeenKey.
Proof. solve_decision. Defined.

(** The [seen] space in which the program registers a node of each type:
    [class] and [interface] records share [seen['class']]. *)
Definition key_of (t : NodeType) : SeenKey :=
  match t with
  | TPackage => Kpackage
  | TFile => Kfile
  | TClass | TInterface => Kclass
  | TMethod => Kmethod
  | TField => Kfield
  end.

(** The node records of one [seen] space, in the order of [nodes]. *)
Definition space (k : SeenKey) (ns : list Node) : list Node :=
  filter (λ n, key_of (n_type n) = k) ns.

(** The ids of the node records. *)
Definition node_ids (g : Graph) : list string := n_id <$> nodes g.

(** The registry invariant: within a [seen] space ids are pairwise distinct,
    and [seen[k]] holds exactly the ids of the records of space [k]. *)
Record registry_ok (g : Graph) : Prop := {
  reg_nodup : ∀ k, NoDup (n_id <$> space k (nodes g));
  reg_complete : ∀ n, n ∈ nodes g → n_id n ∈ seen_get (key_of (n_type n)) (seen g);
  reg_sound : ∀ k x, x ∈ seen_get k (seen g) →
                     ∃ n, n ∈ nodes g ∧ n_id n = x ∧ key_of (n_type n) = k
}.

(** Every [contains] edge joins two ids that have a node record. *)
Definition contains_closed (g : Graph) : Prop :=
  ∀ e, e ∈ edges g → etype e = EContains →
       source e ∈ node_ids g ∧ target e ∈ node_ids g.

(** [nodes] and [edges] are append-only: a later graph extends an earlier
    one at the end. *)
Definition grows (g g' : Graph) : Prop :=
  nodes g `prefix_of` nodes g' ∧ edges g `prefix_of` edges g'.

(** A record of the class space with id [x] is among the nodes. *)
Definition type_registered (g : Graph) (x : string) : Prop :=
  ∃ n, n ∈ nodes g ∧ n_id n = x ∧ key_of (n_type n) = Kclass.

(** The qualification rule in the words of the specification: the simple
    name for a type with no enclosing package, [P + "." + simpleName] with an
    enclosing package [P]. *)
Definition qualified_id (package : option string) (simple_name : string) : string :=
  match package with
  | None => simple_name
  | Some P => P +:+ "." +:+ simple_name
  end.

(** The superclass references of a declaration, none, one or many. *)
Definition superclass_refs (cls : TypeDecl) : list string :=
  match td_extends cls with
  | NoExtends => []
  | ExtendsOne n => [n]
  | ExtendsList l => l
  end.

(** What a visited type declaration contributes, whether or not its records
    were new: a class-space record and a file-to-type [contains] edge for
    the type, and for every superclass and interface reference an
    [extends] or [implements] edge to a class-space record, all ids built
    by [qualify] with the package of the declaring file. *)
Definition type_emitted (g : Graph) (pkg : option string) (path : string)
    (cls : TypeDecl) : Prop :=
  let fqcn := qualify pkg (td_name cls) in
  type_registered g fqcn
  ∧ mkEdge path fqcn EContains ∈ edges g
  ∧ (∀ p, p ∈ superclass_refs cls →
          mkEdge fqcn (qualify pkg p) EExtends ∈ edges g
          ∧ type_registered g (qualify pkg p))
  ∧ (∀ i, i ∈ td_implements cls →
          mkEdge fqcn (qualify pkg i) EImplements ∈ edges g
          ∧ type_registered g (qualify pkg i)).

(** The record of a declared type (the only records with a ["file"] entry)
    carries the id that [qualify] builds from its own ["package"] and
    ["name"] entries. *)
Definition record_qualified (n : Node) : Prop :=
  is_Some (n_file n) →
  n_type n = TClass ∧ n_id n = qualify (n_package n) (n_name n).

(** A property of every accumulated node record. *)
Definition all_records (Q : Node → Prop) (g : Graph) : Prop :=
  ∀ n, n ∈ nodes g → Q n.

(** The invariant of the traversal loop. *)
Definition well_built (g : Graph) : Prop := registry_ok g ∧ contains_closed g.

(** What one turn of the module loop writes: the file of the module key
    [item.1] with its document. *)
Definition module_file `{OsPath} (src_dir out_dir : string) (ns : list Node)
    (es : list Edge) (item : string * list string) : string * Document :=
  let top_pkg := item.1 in
  let mes := module_edges src_dir ns es top_pkg in
  let f := assemble (module_nodes src_dir ns top_pkg) mes in
  (os_join out_dir (replace_char "." "_" top_pkg +:+ ".json"),
   ModuleDoc (sub_hierarchy (module_node_ids src_dir ns top_pkg) f)
             (node_map f) (rels mes)).

(** The scenario of the specification: [src/com/acme/Foo.java] with
    [package com.acme;] and
    [class Foo extends Base implements Runnable { int x; void run() { Base.helper(); } }]. *)
Definition acme_cls : TypeDecl :=
  mkTypeDecl ClassDeclaration "Foo" (ExtendsOne "Base") ["Runnable"]
    [FieldDeclaration "int" ["x"];
     MethodDeclaration "run" [] None true [mkInv (Some "Base") "helper"]].

Definition acme_parse (p : string) : option CompilationUnit :=
  if decide (p = "/src/com/acme/Foo.java")
  then Some (mkCU (Some "com.acme") [] [acme_cls])
  else None.

Definition acme_walk (d : string) : list (string * list string) :=
  [(d, []); (d +:+ "/com", []); (d +:+ "/com/acme", ["Foo.java"; "notes.txt"])].

(** ** Further notions for the statements *)

(** The distinct elements of a list in the order of their first
    occurrences, the order in which a [dict] keeps the keys assigned one
    after the other. *)
Definition first_occurrences (l : list string) : list string :=
  fold_left (λ acc x, if decide (x ∈ acc) then acc else acc ++ [x]) l [].

(** The [__main__] block (lines 228-231), [argv] being [sys.argv]. *)
Definition script `{OsPath} (parse : string → option CompilationUnit)
    (os_walk : string → list (string * list string))
    (argv : list string) : IO unit :=
  let src := if decide (1 < List.length argv) then default "." (argv !! 1) else "." in
  let out := if decide (2 < List.length argv)
             then default "knowledge_graph.json" (argv !! 2)
             else "knowledge_graph.json" in
  main parse os_walk src out.

(** The records the builder makes, by the statement that makes them:
    lines 44, 49 and 55, 81/88 and 96, 106, 114, and 63-70. *)
Inductive built : Node → Prop :=
| built_file path fname :
    endswith ".java" fname = true → built (file_node path fname)
| built_package p : built (package_node p)
| built_stub id name t :
    t = TClass ∨ t = TInterface → built (stub_node id name t)
| built_field fqcn d tname :
    built (field_node (fqcn +:+ "." +:+ d) d tname fqcn)
| built_method fqcn name params rt :
    built (method_node
             (fqcn +:+ "." +:+ (name +:+ "(" +:+ String.concat "," params +:+ ")"))
             name (name +:+ "(" +:+ String.concat "," params +:+ ")")
             fqcn (default "void" rt))
| built_class pkg cls_name path cls :
    built (class_entry (qualify pkg cls_name) cls_name pkg path cls).

(** A record of space [k] with id [x] is among the nodes. *)
Definition registered (g : Graph) (k : SeenKey) (x : string) : Prop :=
  ∃ n, n ∈ nodes g ∧ n_id n = x ∧ key_of (n_type n) = k.

(** The spaces the two ends of an edge belong to, by the type of the edge:
    what lines 51, 57, 73, 83/90, 98, 108, 116 and 121 append. *)
Definition edge_typed (g : Graph) (e : Edge) : Prop :=
  match etype e with
  | EContains =>
      (registered g Kpackage (source e) ∧ registered g Kfile (target e))
      ∨ (registered g Kfile (source e) ∧ registered g Kclass (target e))
      ∨ (registered g Kclass (source e) ∧ registered g Kfield (target e))
      ∨ (registered g Kclass (source e) ∧ registered g Kmethod (target e))
  | EImport => registered g Kfile (source e) ∧ registered g Kpackage (target e)
  | EExtends | EImplements =>
      registered g Kclass (source e) ∧ registered g Kclass (target e)
  | ECalls => registered g Kmethod (source e)
  end.

(** The registry invariant together with the typing of every edge. *)
Definition well_typed (g : Graph) : Prop :=
  registry_ok g ∧ ∀ e, e ∈ edges g → edge_typed g e.

(** A step of the builder appends the same edges whatever was accumulated
    before. *)
Definition edge_additive (step : Graph → Graph) : Prop :=
  ∀ g, edges (step g) = edges g ++ edges (step empty_graph).

(** A compilation unit without its enum and annotation declarations. *)
Definition strip_other_declarations (cu : CompilationUnit) : CompilationUnit :=
  mkCU (cu_package cu) (cu_imports cu)
       (filter (λ t, is_class_or_interface t = true) (cu_types cu)).

(** A directory as [os.walk] sees it: the names of its files and its
    sub-directories with their contents. *)
#[warnings="-register-all"] Inductive DirTree := Dir (files : list string) (dirs : list (string * DirTree)).

(** [exclude_dirs] (line 33) *)
Definition exclude_dirs : gset string :=
  {[ "venv"; ".venv"; ".git"; ".github"; "__pycache__" ]}.

(** [os.walk(top)] with the pruning of line 36: top-down, a directory yields
    its own [(root, files)] before those of the sub-directories that
    [dirs[:] = [d for d in dirs if d not in exclude_dirs]] leaves, which are
    entered in order as [os.path.join(root, d)]. *)
Fixpoint os_walk_pruned `{OsPath} (top : string) (t : DirTree)
    : list (string * list string) :=
  match t with
  | Dir files dirs =>
      (top, files) ::
      (fix go (ds : list (string * DirTree)) : list (string * list string) :=
         match ds with
         | [] => []
         | (name, sub) :: ds' =>
             (if decide (name ∈ exclude_dirs) then []
              else os_walk_pruned (os_join top name) sub) ++ go ds'
         end) dirs
  end.

(** [subdir t names t']: following the directory names [names] downwards
    from [t] leads to [t']. *)
Inductive subdir : DirTree → list string → DirTree → Prop :=
| subdir_here t : subdir t [] t
| subdir_step files dirs name sub names t' :
    (name, sub) ∈ dirs → subdir sub names t' →
    subdir (Dir files dirs) (name :: names) t'.

(** The [(root, files)] pairs with the files the loop body skips at lines
    38-39 left out. *)
Definition only_java (walk : list (string * list string)) : list (string * list string) :=
  (λ entry, (entry.1, filter (λ fname, endswith ".java" fname = true) entry.2)) <$> walk.

(** ** The class space, record by record *)

(** The kept records after one more record was offered: a record whose id
    one of the kept records carries is dropped. *)
Definition keep_unseen (kept : list Node) (n : Node) : list Node :=
  if decide (n_id n ∈ n_id <$> kept) then kept else kept ++ [n].

(** Of the records offered in the order of [l], the first with each id. *)
Definition first_seen (l : list Node) : list Node := fold_left keep_unseen l [].

(** The class-space records a type declaration stands for, in the order in
    which lines 62-98 come to them: the record of the declaration (line 63),
    a [class] stub for every superclass reference (lines 81 and 88) and an
    [interface] stub for every implemented name (line 96). *)
Definition type_candidates (pkg : option string) (path : string) (cls : TypeDecl)
    : list Node :=
  let fqcn := qualify pkg (td_name cls) in
  class_entry fqcn (td_name cls) pkg path cls
  :: ((λ parent, stub_node (qualify pkg parent) parent TClass) <$> superclass_refs cls)
  ++ ((λ name, stub_node (qualify pkg name) name TInterface) <$> td_implements cls).

(** Those of the type declarations of a file, in declaration order. *)
Definition file_candidates `{OsPath} (parse : string → option CompilationUnit)
    (root fname : string) : list Node :=
  if endswith ".java" fname then
    let path := os_join root fname in
    flat_map (type_candidates (parse_java_file parse path).1.1 path)
             (parse_java_file parse path).2
  else [].

(** Those of a whole traversal, in visiting order. *)
Definition class_candidates `{OsPath} (parse : string → option CompilationUnit)
    (walk : list (string * list string)) : list Node :=
  flat_map (λ entry, flat_map (file_candidates parse entry.1) entry.2) walk.

(** A step of the builder offers the records [cands], in that order, to
    the class space, and keeps the registry in order. *)
Definition offers (step : Graph → Graph) (cands : list Node) : Prop :=
  ∀ g, registry_ok g →
       registry_ok (step g)
       ∧ space Kclass (nodes (step g))
         = fold_left keep_unseen cands (space Kclass (nodes g)).

(** [package p; class A implements B {}] in [/src/p/A.java] and
    [package p; interface B {}] in [/src/p/B.java], visited in that order. *)
Definition named_A : TypeDecl := mkTypeDecl ClassDeclaration "A" NoExtends ["B"] [].

Definition named_B : TypeDecl := mkTypeDecl InterfaceDeclaration "B" NoExtends [] [].

Definition named_parse (p : string) : option CompilationUnit :=
  if decide (p = "/src/p/A.java") then Some (mkCU (Some "p") [] [named_A])
  else if decide (p = "/src/p/B.java") then Some (mkCU (Some "p") [] [named_B])
  else None.

Definition named_walk (d : string) : list (string * list string) :=
  [(d, []); (d +:+ "/p", ["A.java"; "B.java"])].

(** * Properties *)

(** ** Dicts *)

Section DictFacts.
Context {V : Type}.
Implicit Types (d : list (string * V)) (k : string).

Lemma dict_keys_set k v d :
  dict_keys (dict_set k v d) =
    if decide (k ∈ dict_keys d) then dict_keys d else dict_keys d ++ [k].
Proof.
  unfold dict_keys.
  induction d as [|[k' v'] d IH].
  - cbn [dict_set]. rewrite fmap_cons, !fmap_nil. cbn [fst].
    rewrite decide_False; [done | apply not_elem_of_nil].
  - cbn [dict_set]. destruct (decide (k = k')) as [->|Hne].
    + rewrite !fmap_cons. cbn [fst].
      rewrite decide_True; [done | by left].
    + rewrite !fmap_cons. cbn [fst]. rewrite IH.
      destruct (decide (k ∈ d.*1)) as [Hin|Hnin].
      * rewrite decide_True; [done | by right].
      * rewrite decide_False; [done |].
        intros [?|?]%elem_of_cons; done.
Qed.

Lemma dict_keys_alter (f : V → V) k d :
  dict_keys (dict_alter f k d) = dict_keys d.
Proof.
  unfold dict_keys. induction d as [|[k' v'] d IH]; [done|].
  cbn [dict_alter]. destruct (decide (k = k'));
    rewrite !fmap_cons; cbn [fst]; [done|]. by rewrite IH.
Qed.

Lemma dict_get_set k k' v d :
  dict_get k' (dict_set k v d) =
    if decide (k' = k) then Some v else dict_get k' d.
Proof.
  induction d as [|[k0 v0] d IH]; cbn [dict_set dict_get]; [done|].
  destruct (decide (k = k0)) as [->|Hne]; cbn [dict_get].
  - destruct (decide (k' = k0)); done.
  - rewrite IH. destruct (decide (k' = k0)) as [->|?]; [|done].
    rewrite decide_False; [done | congruence].
Qed.

Lemma dict_get_alter (f : V → V) k k' d :
  dict_get k' (dict_alter f k d) =
    if decide (k' = k) then f <$> dict_get k' d else dict_get k' d.
Proof.
  induction d as [|[k0 v0] d IH]; cbn [dict_alter dict_get].
  - by destruct (decide (k' = k)).
  - destruct (decide (k = k0)) as [->|Hne]; cbn [dict_get].
    + destruct (decide (k' = k0)); done.
    + rewrite IH. destruct (decide (k' = k0)) as [->|?]; [|done].
      rewrite decide_False; [done | congruence].
Qed.

Lemma dict_get_is_Some k d : is_Some (dict_get k d) ↔ k ∈ dict_keys d.
Proof.
  unfold dict_keys. induction d as [|[k0 v0] d IH]; cbn [dict_get].
  - split; [by intros [? ?] | by intros ?%elem_of_nil].
  - rewrite fmap_cons, elem_of_cons. cbn [fst].
    destruct (decide (k = k0)) as [->|Hne]; [split; eauto|].
    rewrite IH. split; [by right | by intros [?|?]].
Qed.

Lemma dict_mem_spec k d : dict_mem k d = true ↔ k ∈ dict_keys d.
Proof. unfold dict_mem. apply bool_decide_eq_true. Qed.

Lemma dict_keys_set_NoDup k v d :
  NoDup (dict_keys d) → NoDup (dict_keys (dict_set k v d)).
Proof.
  intros Hnd. rewrite dict_keys_set. case_decide; [done|].
  apply NoDup_app. split_and!; [done | | apply NoDup_singleton].
  intros x Hx Hx'. apply list_elem_of_singleton in Hx' as ->. done.
Qed.
End DictFacts.

(** ** The node map *)

Lemma build_node_map_snoc ns n :
  build_node_map (ns ++ [n]) = dict_set (n_id n) (mkObj n []) (build_node_map ns).
Proof. unfold build_node_map. by rewrite fold_left_app. Qed.

(** The keys of [node_map] are the ids of [nodes]. *)
Lemma build_node_map_keys ns k :
  k ∈ dict_keys (build_node_map ns) ↔ k ∈ n_id <$> ns.
Proof.
  induction ns as [|n ns IH] using rev_ind.
  - done.
  - rewrite build_node_map_snoc, dict_keys_set, fmap_app, elem_of_app. simpl.
    rewrite list_elem_of_singleton. case_decide as Hin.
    + rewrite IH. split; [by left|]. intros [?| ->]; [done|]. by apply IH.
    + rewrite elem_of_app, list_elem_of_singleton, IH. done.
Qed.

Lemma build_node_map_NoDup ns : NoDup (dict_keys (build_node_map ns)).
Proof.
  induction ns as [|n ns IH] using rev_ind; [apply NoDup_nil_2|].
  rewrite build_node_map_snoc. by apply dict_keys_set_NoDup.
Qed.

(** Every object starts with an empty [children] list. *)
Lemma build_node_map_children ns k :
  children_of (build_node_map ns) k = [].
Proof.
  unfold children_of.
  induction ns as [|n ns IH] using rev_ind; [done|].
  rewrite build_node_map_snoc, dict_get_set. by case_decide.
Qed.

(** The object under a key is made from the last node record with that id. *)
Lemma build_node_map_get ns k o :
  dict_get k (build_node_map ns) = Some o → o_node o ∈ ns ∧ n_id (o_node o) = k.
Proof.
  induction ns as [|n ns IH] using rev_ind; [done|].
  rewrite build_node_map_snoc, dict_get_set. case_decide as Hk.
  - intros [= <-]. simpl. split; [|done]. apply elem_of_app. right. by left.
  - intros [??]%IH. split; [|done]. apply elem_of_app. by left.
Qed.

(** ** The assembled forest *)

Lemma assemble_snoc ns es e :
  assemble ns (es ++ [e]) = link_step (assemble ns es) e.
Proof. unfold assemble. by rewrite fold_left_app. Qed.

Lemma link_step_keys f e :
  dict_keys (node_map (link_step f e)) = dict_keys (node_map f).
Proof.
  unfold link_step. repeat case_match; try done.
  cbn [node_map]. apply dict_keys_alter.
Qed.

(** The assembler never adds or removes a key of [node_map]. *)
Lemma assemble_keys ns es :
  dict_keys (node_map (assemble ns es)) = dict_keys (build_node_map ns).
Proof.
  induction es as [|e es IH] using rev_ind; [done|].
  by rewrite assemble_snoc, link_step_keys.
Qed.

Lemma assemble_mem ns es k :
  dict_mem k (node_map (assemble ns es)) = bool_decide (k ∈ n_id <$> ns).
Proof.
  unfold dict_mem. rewrite assemble_keys.
  apply bool_decide_ext, build_node_map_keys.
Qed.

(** One step of the loop, by cases on the guard. *)
Lemma assemble_step ns es e :
  assemble ns (es ++ [e]) =
    if decide (links ns e)
    then mkForest (append_child (source e) (target e) (node_map (assemble ns es)))
                  (<[target e := source e]> (parent (assemble ns es)))
    else assemble ns es.
Proof.
  rewrite assemble_snoc. unfold link_step, links.
  rewrite !assemble_mem.
  destruct (decide (etype e = EContains)) as [Ht|Ht].
  - destruct (decide (source e ∈ n_id <$> ns)) as [Hs|Hs].
    + destruct (decide (target e ∈ n_id <$> ns)) as [Hg|Hg].
      * rewrite !bool_decide_eq_true_2 by done. cbn [andb].
        rewrite decide_True; done.
      * rewrite (bool_decide_eq_false_2 (target e ∈ _)), andb_false_r by done.
        rewrite decide_False; [done | tauto].
    + rewrite (bool_decide_eq_false_2 (source e ∈ _)) by done. cbn [andb].
      rewrite decide_False; [done | tauto].
  - rewrite decide_False; [done | tauto].
Qed.

(** The [children] list of an object is, in edge order, the targets of the
    acted-on edges that leave it: one entry per edge, none ever removed. *)
Lemma assemble_children ns es s :
  children_of (node_map (assemble ns es)) s =
    target <$> filter (λ e, links ns e ∧ source e = s) es.
Proof.
  induction es as [|e es IH] using rev_ind.
  - apply build_node_map_children.
  - rewrite assemble_step, filter_app, fmap_app, <- IH.
    rewrite filter_cons, filter_nil.
    destruct (decide (links ns e)) as [Hl|Hl].
    + unfold children_of, append_child. cbn [node_map].
      rewrite dict_get_alter.
      destruct (decide (s = source e)) as [->|Hne].
      * rewrite decide_True by done.
        destruct Hl as (_ & Hs & _).
        assert (is_Some (dict_get (source e) (node_map (assemble ns es)))) as [o Ho].
        { apply dict_get_is_Some. rewrite assemble_keys.
          by apply build_node_map_keys. }
        rewrite Ho. done.
      * rewrite decide_False by (intros [_ ?]; congruence).
        by rewrite app_nil_r.
    + rewrite decide_False by tauto. by rewrite app_nil_r.
Qed.

(** [parent] maps a node to the source of the last acted-on edge that
    targets it. *)
Lemma assemble_parent ns es t :
  parent (assemble ns es) !! t =
    source <$> last (filter (λ e, links ns e ∧ target e = t) es).
Proof.
  induction es as [|e es IH] using rev_ind.
  - done.
  - rewrite assemble_step, filter_app, filter_cons, filter_nil.
    destruct (decide (links ns e)) as [Hl|Hl].
    + cbn [parent]. destruct (decide (target e = t)) as [<-|Hne].
      * rewrite decide_True by done. rewrite last_snoc, lookup_insert_eq. done.
      * rewrite decide_False by tauto.
        rewrite app_nil_r, lookup_insert_ne by done. apply IH.
    + rewrite decide_False by tauto. rewrite app_nil_r. apply IH.
Qed.

(** Whatever stands in a [children] list has a parent recorded. *)
Lemma child_has_parent ns es p c :
  child (node_map (assemble ns es)) p c → is_Some (parent (assemble ns es) !! c).
Proof.
  unfold child. rewrite assemble_children, assemble_parent.
  intros (e & -> & [[Hl Hs] He]%list_elem_of_filter)%list_elem_of_fmap.
  apply fmap_is_Some.
  assert (e ∈ filter (λ e', links ns e' ∧ target e' = target e) es) as Hin.
  { apply list_elem_of_filter. done. }
  destruct (filter _ es) as [|x l] eqn:E using rev_ind.
  - by apply elem_of_nil in Hin.
  - rewrite last_snoc. eauto.
Qed.

Lemma exported_has_path d rs k :
  exported d rs k → ∃ l, exported_path d rs l k.
Proof.
  induction 1 as [r Hr | p c _ [l Hl] Hc].
  - exists [r]. by constructor.
  - exists (l ++ [c]). by econstructor.
Qed.

(** A node without a recorded parent is reached only as a root. *)
Lemma parentless_on_path ns es rs l k x :
  parent (assemble ns es) !! x = None → x ∉ rs →
  exported_path (node_map (assemble ns es)) rs l k → x ∉ l.
Proof.
  intros Hx Hrs. induction 1 as [r Hr | l p c _ IH Hc].
  - intros ->%list_elem_of_singleton. done.
  - intros [Hin | ->%list_elem_of_singleton]%elem_of_app; [done|].
    apply child_has_parent in Hc as [? Hc]. congruence.
Qed.

(** C3 (as amended): the assembler records one parent per node, the source of
    the last acted-on [contains] edge that targets it, but it never takes a
    node out of a [children] list: the [children] list of an object is, in edge
    order, the targets of the acted-on [contains] edges that leave it. A node
    targeted from several sources therefore stands in the [children] list of
    each of them. *)
Theorem C3_children_per_edge (ns : list Node) (es : list Edge) :
  let f := assemble ns es in
  (∀ t, parent f !! t = source <$> last (filter (λ e, links ns e ∧ target e = t) es))
  ∧ (∀ s, children_of (node_map f) s =
          target <$> filter (λ e, links ns e ∧ source e = s) es)
  ∧ (∀ s t, child (node_map f) s t ↔
            ∃ e, e ∈ es ∧ links ns e ∧ source e = s ∧ target e = t).
Proof.
  cbn zeta. split_and!.
  - apply assemble_parent.
  - apply assemble_children.
  - intros s t. unfold child. rewrite assemble_children, list_elem_of_fmap.
    split.
    + intros (e & -> & [[Hl Hs] He]%list_elem_of_filter). by exists e.
    + intros (e & He & Hl & Hs & Ht). exists e. split; [done|].
      apply list_elem_of_filter. done.
Qed.

(** C3, the claim as stated fails: two files of the default package declare
    [class Foo]; the node [Foo] ends up in the [children] list of both file
    nodes, both of them roots of the hierarchy, while [parent] names the
    second file only.  The same holds of the document written for the module
    [app], which holds the two files and the class. *)
Lemma C3_counterexample :
  let g := traverse twins_parse (twins_walk "/src") in
  let f := assemble (nodes g) (edges g) in
  let mf := assemble (module_nodes "/src" (nodes g) "app")
                     (module_edges "/src" (nodes g) (edges g) "app") in
  "/src/app/a/Foo.java" ≠ "/src/app/b/Foo.java"
  ∧ children_of (node_map f) "/src/app/a/Foo.java" = ["Foo"]
  ∧ children_of (node_map f) "/src/app/b/Foo.java" = ["Foo"]
  ∧ parent f !! "Foo" = Some "/src/app/b/Foo.java"
  ∧ roots f = ["/src/app/a/Foo.java"; "/src/app/b/Foo.java"]
  ∧ children_of (node_map mf) "/src/app/a/Foo.java" = ["Foo"]
  ∧ children_of (node_map mf) "/src/app/b/Foo.java" = ["Foo"]
  ∧ "/src/app/a/Foo.java" ∈ sub_hierarchy (module_node_ids "/src" (nodes g) "app") mf
  ∧ "/src/app/b/Foo.java" ∈ sub_hierarchy (module_node_ids "/src" (nodes g) "app") mf.
Proof.
  cbn zeta. split_and!; [done | vm_compute; reflexivity .. | |];
    apply (bool_decide_unpack _); vm_compute; exact I.
Qed.

(** C10: when some [package] node has no parent, the roots of the aggregate
    hierarchy are exactly the parentless [package] nodes; a parentless node of
    another type is no root, is in no [children] list, and so is not reached
    by the export, nor is any node that can only be reached through it. *)
Theorem C10_package_roots_hide_other_roots (ns : list Node) (es : list Edge) :
  let f := assemble ns es in
  (∃ p, p ∈ dict_keys (node_map f) ∧ parent f !! p = None
        ∧ has_type (node_map f) TPackage p = true) →
  roots f = package_roots f
  ∧ (∀ r, r ∈ roots f ↔
          r ∈ dict_keys (node_map f) ∧ parent f !! r = None
          ∧ has_type (node_map f) TPackage r = true)
  ∧ (∀ x, x ∈ dict_keys (node_map f) → parent f !! x = None →
          has_type (node_map f) TPackage x = false →
          (x ∉ roots f)
          ∧ (∀ p, ¬ child (node_map f) p x)
          ∧ ¬ exported (node_map f) (roots f) x
          ∧ (∀ y, (∀ l, exported_path (node_map f) (roots f) l y → x ∈ l) →
                  ¬ exported (node_map f) (roots f) y)).
Proof.
  cbn zeta. intros (p & Hp & Hpar & Hty).
  assert (∀ r, r ∈ package_roots (assemble ns es) ↔
               r ∈ dict_keys (node_map (assemble ns es))
               ∧ parent (assemble ns es) !! r = None
               ∧ has_type (node_map (assemble ns es)) TPackage r = true) as Hpr.
  { intros r. unfold package_roots, parentless.
    rewrite !list_elem_of_filter. tauto. }
  assert (roots (assemble ns es) = package_roots (assemble ns es)) as Hroots.
  { assert (p ∈ package_roots (assemble ns es)) as Hin by by apply Hpr.
    unfold roots. destruct (package_roots _) as [|r l]; [|done].
    by apply elem_of_nil in Hin. }
  split_and!; [done | by rewrite Hroots |].
  intros x Hx Hxpar Hxty.
  assert (x ∉ roots (assemble ns es)) as Hnr.
  { rewrite Hroots, Hpr. intros (_ & _ & ?). congruence. }
  assert (∀ l y, exported_path (node_map (assemble ns es)) (roots (assemble ns es)) l y
                 → x ∉ l) as Hpath.
  { intros l y. by apply parentless_on_path. }
  split_and!; [done | | |].
  - intros q [? Hc]%child_has_parent. congruence.
  - intros [l Hl]%exported_has_path. apply (Hpath _ _ Hl).
    inversion Hl; subst; [by left | apply elem_of_app; right; by left].
  - intros y Hy [l Hl]%exported_has_path. by apply (Hpath _ _ Hl), Hy.
Qed.

(** ** The export paths *)

Lemma substring_whole (t : string) : substring 0 (String.length t) t = t.
Proof. induction t as [|b t IH]; cbn; [done | by rewrite IH]. Qed.

Lemma substring_app_r (s t : string) :
  substring (String.length s) (String.length t) (s +:+ t) = t.
Proof.
  induction s as [|a s IH]; cbn; [apply substring_whole | exact IH].
Qed.

Lemma length_app_string (s t : string) :
  String.length (s +:+ t) = (String.length s + String.length t)%nat.
Proof. induction s as [|a s IH]; simpl; [done | by f_equal]. Qed.

Lemma endswith_app (s t : string) : endswith t (s +:+ t) = true.
Proof.
  unfold endswith. rewrite length_app_string.
  replace (String.length s + String.length t - String.length t)%nat
    with (String.length s) by lia.
  rewrite substring_app_r, String.eqb_refl, andb_true_r.
  apply Nat.leb_le. lia.
Qed.

(** With an output target that ends in [.json], [main] opens the output
    file, dumps nothing and raises [NameError]. *)
Lemma main_json_target `{OsPath}
    (parse : string → option CompilationUnit)
    (os_walk : string → list (string * list string))
    (src_dir output_file : string) (fs : Files) :
  endswith ".json" output_file = true →
  main parse os_walk src_dir output_file fs
  = (fs ++ [(output_file, EmptyDoc)], Raise (NameError "result")).
Proof. intros Hjson. unfold main. rewrite Hjson. reflexivity. Qed.

(** C2, the defect: for every output target [stem + ".json"], whatever the
    source tree, [main] opens the output file, writes nothing to it and
    raises [NameError] for the name [result], which is bound nowhere; no
    aggregate structure is written and the run does not complete. *)
Theorem C2_aggregate_export_raises `{OsPath}
    (parse : string → option CompilationUnit)
    (os_walk : string → list (string * list string))
    (src_dir stem : string) (fs : Files) :
  main parse os_walk src_dir (stem +:+ ".json") fs
  = (fs ++ [(stem +:+ ".json", EmptyDoc)], Raise (NameError "result")).
Proof. apply main_json_target, endswith_app. Qed.

(** The default target of the command line. *)
Example default_target_raises :
  main twins_parse twins_walk "/src" "knowledge_graph.json" []
  = ([("knowledge_graph.json", EmptyDoc)], Raise (NameError "result")).
Proof. by apply main_json_target. Qed.

(** ** Module Partitioner *)

Section Partition.
Context `{OsPath}.
Implicit Types (ns : list Node) (es : list Edge) (src_dir : string).

Lemma setdefault_append_keys md id (d : list (string * list string)) :
  dict_keys (setdefault_append md id d) =
    if decide (md ∈ dict_keys d) then dict_keys d else dict_keys d ++ [md].
Proof.
  unfold setdefault_append, dict_mem.
  destruct (decide (md ∈ dict_keys d)) as [Hin|Hnin].
  - rewrite bool_decide_eq_true_2 by done. apply dict_keys_alter.
  - rewrite bool_decide_eq_false_2 by done. rewrite dict_keys_set.
    by rewrite decide_False.
Qed.

Lemma top_pkg_map_snoc src_dir ns n :
  top_pkg_map src_dir (ns ++ [n]) =
    setdefault_append (_module_id src_dir n) (n_id n) (top_pkg_map src_dir ns).
Proof. unfold top_pkg_map. by rewrite fold_left_app. Qed.

(** The keys of [top_pkg_map] are the module keys of the nodes. *)
Lemma top_pkg_map_keys src_dir ns k :
  k ∈ dict_keys (top_pkg_map src_dir ns) ↔ ∃ n, n ∈ ns ∧ _module_id src_dir n = k.
Proof.
  induction ns as [|n ns IH] using rev_ind.
  - split; [by intros ?%elem_of_nil | by intros (? & ?%elem_of_nil & _)].
  - rewrite top_pkg_map_snoc, setdefault_append_keys.
    case_decide as Hin.
    + rewrite IH. split.
      * intros (m & Hm & <-). exists m. split; [|done]. apply elem_of_app. by left.
      * intros (m & [Hm | ->%list_elem_of_singleton]%elem_of_app & <-).
        -- by exists m.
        -- by apply IH.
    + rewrite elem_of_app, list_elem_of_singleton, IH. split.
      * intros [(m & Hm & <-) | ->].
        -- exists m. split; [|done]. apply elem_of_app. by left.
        -- exists n. split; [|done]. apply elem_of_app. right. by left.
      * intros (m & [Hm | ->%list_elem_of_singleton]%elem_of_app & <-).
        -- left. by exists m.
        -- by right.
Qed.

Lemma top_pkg_map_NoDup src_dir ns : NoDup (dict_keys (top_pkg_map src_dir ns)).
Proof.
  induction ns as [|n ns IH] using rev_ind; [apply NoDup_nil_2|].
  rewrite top_pkg_map_snoc, setdefault_append_keys. case_decide; [done|].
  apply NoDup_app. split_and!; [done | | apply NoDup_singleton].
  by intros x Hx ->%list_elem_of_singleton.
Qed.

Lemma elem_of_module_nodes src_dir ns k n :
  n ∈ module_nodes src_dir ns k ↔ n ∈ ns ∧ _module_id src_dir n = k.
Proof. unfold module_nodes. rewrite list_elem_of_filter. tauto. Qed.

Lemma elem_of_module_node_ids src_dir ns k x :
  x ∈ module_node_ids src_dir ns k ↔
    ∃ n, n ∈ ns ∧ n_id n = x ∧ _module_id src_dir n = k.
Proof.
  unfold module_node_ids.
  rewrite elem_of_list_to_set, list_elem_of_fmap.
  setoid_rewrite elem_of_module_nodes. split.
  - intros (n & -> & Hn & Hk). by exists n.
  - intros (n & Hn & <- & Hk). by exists n.
Qed.

Lemma elem_of_module_edges src_dir ns es k e :
  e ∈ module_edges src_dir ns es k ↔
    e ∈ es ∧ source e ∈ module_node_ids src_dir ns k
    ∧ target e ∈ module_node_ids src_dir ns k.
Proof. unfold module_edges. rewrite list_elem_of_filter. tauto. Qed.

(** Both endpoints of a module edge are ids of module nodes, so the
    unguarded subscriptions of lines 203-204 never fail. *)
Lemma module_edges_closed src_dir ns es k e :
  e ∈ module_edges src_dir ns es k →
  source e ∈ n_id <$> module_nodes src_dir ns k
  ∧ target e ∈ n_id <$> module_nodes src_dir ns k.
Proof.
  intros (_ & Hs & Ht)%elem_of_module_edges.
  unfold module_node_ids in *. by rewrite !elem_of_list_to_set in Hs, Ht.
Qed.

(** On an edge list whose [contains] edges all join nodes of the map, the
    unguarded loop of the module path never raises and computes what the
    guarded loop of lines 125-130 computes. *)
Lemma for_each_mod_link_step ns es (f0 : Forest) fs :
  (∀ k, k ∈ dict_keys (node_map f0) ↔ k ∈ n_id <$> ns) →
  (∀ e, e ∈ es → source e ∈ n_id <$> ns ∧ target e ∈ n_id <$> ns) →
  for_each mod_link_step es f0 fs = (fs, Ok (fold_left link_step es f0)).
Proof.
  revert f0. induction es as [|e es IH]; intros f0 Hkeys Hes; [done|].
  destruct (Hes e) as [Hs Ht]; [by left|].
  assert (mod_link_step f0 e fs = (fs, Ok (link_step f0 e))) as Hstep.
  { unfold mod_link_step, link_step, dict_mem.
    case_decide; [|done].
    rewrite !bool_decide_eq_true_2 by by apply Hkeys. done. }
  cbn [for_each fold_left]. unfold mbind, IO_bind. rewrite Hstep.
  apply IH.
  - intros k. by rewrite link_step_keys.
  - intros e' He'. apply Hes. by right.
Qed.

Lemma mod_assemble_ok src_dir ns es k fs :
  mod_assemble (module_nodes src_dir ns k) (module_edges src_dir ns es k) fs
  = (fs, Ok (assemble (module_nodes src_dir ns k) (module_edges src_dir ns es k))).
Proof.
  unfold mod_assemble, assemble.
  apply (for_each_mod_link_step (module_nodes src_dir ns k)).
  - intros x. apply build_node_map_keys.
  - intros e. apply module_edges_closed.
Qed.

(** The ids of a module's nodes, as iterated at line 206, are the keys of
    its node map. *)
Lemma module_ids_keys src_dir ns es k x :
  x ∈ elements (module_node_ids src_dir ns k) ↔
  x ∈ dict_keys (node_map (assemble (module_nodes src_dir ns k)
                                    (module_edges src_dir ns es k))).
Proof.
  rewrite assemble_keys, build_node_map_keys, elem_of_elements.
  unfold module_node_ids. by rewrite elem_of_list_to_set.
Qed.
End Partition.

Lemma roots_parentless f x : x ∈ roots f → x ∈ parentless f.
Proof.
  unfold roots. destruct (package_roots f) as [|r l] eqn:E; [done|].
  rewrite <- E. unfold package_roots. by intros [_ ?]%list_elem_of_filter.
Qed.

(** C4 (as amended): for each module key the loop body never raises; it
    writes a document whose node map and parent links are those of the
    assembler of lines 123-130 run on exactly the module's nodes and edges,
    and whose relation list is the module's non-[contains] edges; but the
    module-local roots are all the module's nodes without a module-local
    parent, whatever their type: parentless [package] nodes get no
    preference, so the roots of the assembler rule are among them and other
    parentless nodes are roots as well. *)
Theorem C4_module_forest `{OsPath} (src_dir out_dir : string)
    (ns : list Node) (es : list Edge) (written_modules : list string)
    (item : string * list string) (fs : Files) :
  let top_pkg := item.1 in
  let ids := module_node_ids src_dir ns top_pkg in
  let mes := module_edges src_dir ns es top_pkg in
  let f := assemble (module_nodes src_dir ns top_pkg) mes in
  module_step src_dir out_dir ns es written_modules item fs
  = (fs ++ [(os_join out_dir (replace_char "." "_" top_pkg +:+ ".json"),
             ModuleDoc (sub_hierarchy ids f) (node_map f) (rels mes))],
     Ok (written_modules ++ [top_pkg]))
  ∧ NoDup (sub_hierarchy ids f)
  ∧ (∀ x, x ∈ sub_hierarchy ids f ↔ x ∈ ids ∧ parent f !! x = None)
  ∧ (∀ x, x ∈ sub_hierarchy ids f ↔ x ∈ parentless f)
  ∧ (∀ x, x ∈ roots f → x ∈ sub_hierarchy ids f).
Proof.
  cbn zeta.
  assert (∀ x, x ∈ sub_hierarchy (module_node_ids src_dir ns item.1)
                 (assemble (module_nodes src_dir ns item.1)
                           (module_edges src_dir ns es item.1))
               ↔ x ∈ parentless (assemble (module_nodes src_dir ns item.1)
                                          (module_edges src_dir ns es item.1)))
    as Hsub.
  { intros x. unfold sub_hierarchy, parentless.
    rewrite !list_elem_of_filter, (module_ids_keys _ _ es). done. }
  split_and!.
  - unfold module_step, mbind, IO_bind. rewrite mod_assemble_ok. reflexivity.
  - apply NoDup_filter, NoDup_elements.
  - intros x. unfold sub_hierarchy.
    rewrite list_elem_of_filter, elem_of_elements. tauto.
  - done.
  - intros x Hx. by apply Hsub, roots_parentless.
Qed.

(** C4, the claim as stated fails: in the module [app] a parentless
    [package] node exists, so the assembler rule run on the module's nodes
    and edges makes it the only root, yet the module-local roots also hold
    the parentless file node. *)
Lemma C4_counterexample :
  let g := traverse app_parse (app_walk "/src") in
  let ids := module_node_ids "/src" (nodes g) "app" in
  let f := assemble (module_nodes "/src" (nodes g) "app")
                    (module_edges "/src" (nodes g) (edges g) "app") in
  roots f = ["app.util.Helper"]
  ∧ has_type (node_map f) TPackage "app.util.Helper" = true
  ∧ has_type (node_map f) TFile "/src/app/Main.java" = true
  ∧ ("/src/app/Main.java" ∉ roots f)
  ∧ "/src/app/Main.java" ∈ sub_hierarchy ids f.
Proof.
  cbn zeta. split_and!; [vm_compute; reflexivity .. | |].
  - apply (bool_decide_unpack _). vm_compute. exact I.
  - apply (bool_decide_unpack _). vm_compute. exact I.
Qed.

(** C5 (as amended): the module keys are pairwise distinct, the union of the
    per-module node-id sets is the full node-id set, and every node record
    belongs to the node list of exactly one module key.  The id sets of two
    distinct module keys are disjoint provided that node records sharing an id
    resolve to the same module key (in particular when ids are pairwise
    distinct); ids are unique per [seen] space only, so that proviso can
    fail. *)
Theorem C5_module_partition `{OsPath} (src_dir : string) (ns : list Node) :
  let keys := dict_keys (top_pkg_map src_dir ns) in
  NoDup keys
  ∧ (∀ x, x ∈ n_id <$> ns ↔ ∃ k, k ∈ keys ∧ x ∈ module_node_ids src_dir ns k)
  ∧ (∀ n, n ∈ ns →
          _module_id src_dir n ∈ keys
          ∧ ∀ k, n ∈ module_nodes src_dir ns k ↔ k = _module_id src_dir n)
  ∧ ((∀ n1 n2, n1 ∈ ns → n2 ∈ ns → n_id n1 = n_id n2 →
               _module_id src_dir n1 = _module_id src_dir n2) →
     ∀ k1 k2, k1 ≠ k2 →
              module_node_ids src_dir ns k1 ## module_node_ids src_dir ns k2).
Proof.
  cbn zeta. split_and!.
  - apply top_pkg_map_NoDup.
  - intros x. rewrite list_elem_of_fmap. split.
    + intros (n & -> & Hn). exists (_module_id src_dir n). split.
      * apply top_pkg_map_keys. by exists n.
      * apply elem_of_module_node_ids. by exists n.
    + intros (k & _ & (n & Hn & <- & _)%elem_of_module_node_ids). by exists n.
  - intros n Hn. split.
    + apply top_pkg_map_keys. by exists n.
    + intros k. rewrite elem_of_module_nodes. split; [by intros [_ <-] | by intros ->].
  - intros Hids k1 k2 Hne x
      (n1 & Hn1 & <- & Hk1)%elem_of_module_node_ids
      (n2 & Hn2 & Heq & Hk2)%elem_of_module_node_ids.
    apply Hne. rewrite <- Hk1, <- Hk2. symmetry. by apply Hids.
Qed.

(** C5 at work: the seven node records of the tree of the specification
    have distinct ids and fall into the two modules [com] (the package, the
    file and the declared class) and [root] (the two stubs, the field and
    the method); the id sets of the two modules share nothing. *)
Lemma C5_distinct_ids_disjoint :
  let ns := nodes (traverse acme_parse (acme_walk "/src")) in
  NoDup (n_id <$> ns)
  ∧ dict_keys (top_pkg_map "/src" ns) = ["com"; "root"]
  ∧ n_id <$> module_nodes "/src" ns "com"
    = ["/src/com/acme/Foo.java"; "com.acme"; "com.acme.Foo"]
  ∧ n_id <$> module_nodes "/src" ns "root"
    = ["com.acme.Base"; "com.acme.Runnable"; "com.acme.Foo.x"; "com.acme.Foo.run()"]
  ∧ module_node_ids "/src" ns "com" ## module_node_ids "/src" ns "root".
Proof.
  cbn zeta.
  assert (NoDup (n_id <$> nodes (traverse acme_parse (acme_walk "/src")))) as Hnd.
  { apply (bool_decide_unpack _). vm_compute. exact I. }
  split_and!; [done | vm_compute; reflexivity | vm_compute; reflexivity
               | vm_compute; reflexivity |].
  apply (C5_module_partition "/src" (nodes (traverse acme_parse (acme_walk "/src"))));
    [|done].
  assert (Forall (λ n1, Forall (λ n2, n_id n1 = n_id n2 →
                           _module_id "/src" n1 = _module_id "/src" n2)
                          (nodes (traverse acme_parse (acme_walk "/src"))))
                 (nodes (traverse acme_parse (acme_walk "/src")))) as HF.
  { apply (bool_decide_unpack _). vm_compute. exact I. }
  intros n1 n2 Hn1 Hn2.
  rewrite Forall_forall in HF. specialize (HF n1 Hn1).
  rewrite Forall_forall in HF. by apply HF.
Defined.

(** C5, the claim as stated fails: [import a.Base] registers a [package]
    node with id [a.Base] (module [a]) and [extends Base] a stub [class] node
    with the same id (module [root]); the id sets of the two modules share
    it. *)
Lemma C5_counterexample :
  let ns := nodes (traverse shadow_parse (shadow_walk "/src")) in
  dict_keys (top_pkg_map "/src" ns) = ["a"; "root"]
  ∧ "a.Base" ∈ module_node_ids "/src" ns "a"
  ∧ "a.Base" ∈ module_node_ids "/src" ns "root"
  ∧ ¬ (module_node_ids "/src" ns "a" ## module_node_ids "/src" ns "root").
Proof.
  cbn zeta.
  assert ("a.Base" ∈ module_node_ids "/src"
            (nodes (traverse shadow_parse (shadow_walk "/src"))) "a") as Ha.
  { apply (bool_decide_unpack _). vm_compute. exact I. }
  assert ("a.Base" ∈ module_node_ids "/src"
            (nodes (traverse shadow_parse (shadow_walk "/src"))) "root") as Hr.
  { apply (bool_decide_unpack _). vm_compute. exact I. }
  split_and!; [vm_compute; reflexivity | done | done |].
  intros Hdisj. exact (Hdisj _ Ha Hr).
Qed.

(** C6 (as amended): an edge whose source id and target id belong to nodes
    that resolve to two different module keys (every node record with the
    source id resolving to one key, every record with the target id to the
    other) is in no module's edge list, hence in no per-module output.  It is
    in the aggregate relation list when its type is not [contains]; a
    [contains] edge is never in a relation list. *)
Theorem C6_cross_module_edges `{OsPath} (src_dir : string) (ns : list Node)
    (es : list Edge) (e : Edge) (ks kt : string) :
  e ∈ es →
  (∀ n, n ∈ ns → n_id n = source e → _module_id src_dir n = ks) →
  (∀ n, n ∈ ns → n_id n = target e → _module_id src_dir n = kt) →
  ks ≠ kt →
  (∀ k, (e ∉ module_edges src_dir ns es k)
        ∧ (e ∉ rels (module_edges src_dir ns es k)))
  ∧ (etype e ≠ EContains → e ∈ rels es)
  ∧ (etype e = EContains → e ∉ rels es).
Proof.
  intros He Hs Ht Hne. split_and!.
  - intros k.
    assert (e ∉ module_edges src_dir ns es k) as Hnot.
    { intros (_ & (n1 & Hn1 & Hid1 & Hk1)%elem_of_module_node_ids
                & (n2 & Hn2 & Hid2 & Hk2)%elem_of_module_node_ids)%elem_of_module_edges.
      apply Hne. rewrite <- (Hs n1 Hn1 Hid1), <- (Ht n2 Hn2 Hid2). congruence. }
    split; [done|]. unfold rels. by intros [_ ?]%list_elem_of_filter.
  - intros Hty. unfold rels. by apply list_elem_of_filter.
  - intros Hty. unfold rels. by intros [? _]%list_elem_of_filter.
Qed.

(** C6 at work: the [contains] edge from the class [a.Foo] (module [a]) to
    its field (module [root]) is in no module's edge list, and in no relation
    list. *)
Lemma C6_field_edge_across_modules :
  let g := traverse shadow_parse (shadow_walk "/src") in
  let e := mkEdge "a.Foo" "a.Foo.x" EContains in
  e ∈ edges g
  ∧ (∀ k, e ∉ module_edges "/src" (nodes g) (edges g) k)
  ∧ (e ∉ rels (edges g)).
Proof.
  cbn zeta.
  assert (mkEdge "a.Foo" "a.Foo.x" EContains
            ∈ edges (traverse shadow_parse (shadow_walk "/src"))) as Hin.
  { apply (bool_decide_unpack _). vm_compute. exact I. }
  destruct (C6_cross_module_edges "/src"
              (nodes (traverse shadow_parse (shadow_walk "/src")))
              (edges (traverse shadow_parse (shadow_walk "/src")))
              (mkEdge "a.Foo" "a.Foo.x" EContains) "a" "root") as (H1 & _ & H3).
  - exact Hin.
  - apply (proj1 (Forall_forall
               (λ n, n_id n = "a.Foo" → _module_id "/src" n = "a") _)).
    apply (bool_decide_unpack _). vm_compute. exact I.
  - apply (proj1 (Forall_forall
               (λ n, n_id n = "a.Foo.x" → _module_id "/src" n = "root") _)).
    apply (bool_decide_unpack _). vm_compute. exact I.
  - done.
  - split_and!; [done | intros k; exact (proj1 (H1 k)) | by apply H3].
Defined.

(** C6, the claim as stated fails: the [contains] edge from the class
    [a.Foo] (module [a]) to its field [a.Foo.x] (module [root]) joins two
    modules, is in no module's edge list, and is not in the aggregate
    relation list either. *)
Lemma C6_counterexample :
  let g := traverse shadow_parse (shadow_walk "/src") in
  let e := mkEdge "a.Foo" "a.Foo.x" EContains in
  e ∈ edges g
  ∧ _module_id "/src" <$> filter (λ n, n_id n = source e) (nodes g) = ["a"]
  ∧ _module_id "/src" <$> filter (λ n, n_id n = target e) (nodes g) = ["root"]
  ∧ dict_keys (top_pkg_map "/src" (nodes g)) = ["a"; "root"]
  ∧ (e ∉ module_edges "/src" (nodes g) (edges g) "a")
  ∧ (e ∉ module_edges "/src" (nodes g) (edges g) "root")
  ∧ (e ∉ rels (edges g)).
Proof.
  cbn zeta. split_and!; try (vm_compute; reflexivity);
    apply (bool_decide_unpack _); vm_compute; exact I.
Qed.

(** An id shared by node records of two modules blurs the notion: the
    [extends] edge from [a.Foo] to [a.Base] is kept in module [a], where the
    id [a.Base] is that of the imported [package] node, although the [class]
    stub the edge was emitted for resolves to module [root]. *)
Lemma shadowed_stub_edge_kept :
  let g := traverse shadow_parse (shadow_walk "/src") in
  let e := mkEdge "a.Foo" "a.Base" EExtends in
  stub_node "a.Base" "Base" TClass ∈ nodes g
  ∧ _module_id "/src" (stub_node "a.Base" "Base" TClass) = "root"
  ∧ e ∈ rels (module_edges "/src" (nodes g) (edges g) "a").
Proof.
  cbn zeta. split_and!; try (vm_compute; reflexivity);
    apply (bool_decide_unpack _); vm_compute; exact I.
Qed.

(** ** Graph Builder: the accumulated collections only grow *)

#[global] Instance grows_preorder : PreOrder grows.
Proof.
  split.
  - intros g. by split.
  - intros g1 g2 g3 [??] [??]. split; by etrans.
Qed.

Lemma grows_nodes g g' n : grows g g' → n ∈ nodes g → n ∈ nodes g'.
Proof. intros [[k ->] _] Hn. apply elem_of_app. by left. Qed.

Lemma grows_edges g g' e : grows g g' → e ∈ edges g → e ∈ edges g'.
Proof. intros [_ [k ->]] He. apply elem_of_app. by left. Qed.

Lemma grows_node_ids g g' x : grows g g' → x ∈ node_ids g → x ∈ node_ids g'.
Proof.
  unfold node_ids. intros Hg (n & -> & Hn)%list_elem_of_fmap.
  apply list_elem_of_fmap. exists n. split; [done|]. by eapply grows_nodes.
Qed.

Lemma grows_type_registered g g' x :
  grows g g' → type_registered g x → type_registered g' x.
Proof. intros Hg (n & Hn & ?). exists n. split; [by eapply grows_nodes | done]. Qed.

Lemma grows_add_edge g g' e : grows g g' → grows g (add_edge e g').
Proof.
  intros Hg. etrans; [exact Hg|]. split; cbn; [done | by apply prefix_app_r].
Qed.

Lemma grows_append_unseen g g' k n : grows g g' → grows g (append_unseen k n g').
Proof.
  intros Hg. etrans; [exact Hg|]. unfold append_unseen.
  case_decide; [done|]. split; cbn; [by apply prefix_app_r | done].
Qed.

Lemma grows_fold_left {A} (f : Graph → A → Graph) l g g' :
  (∀ g x, grows g (f g x)) → grows g g' → grows g (fold_left f l g').
Proof.
  intros Hf. revert g'. induction l as [|x l IH]; intros g' Hg; [done|].
  cbn. apply IH. etrans; [exact Hg | apply Hf].
Qed.

Ltac grows_step :=
  first [ reflexivity
        | apply grows_add_edge
        | apply grows_append_unseen
        | apply grows_fold_left; [intros ? ? | ] ].

Lemma extends_step_grows pkg fqcn g p : grows g (extends_step pkg fqcn g p).
Proof. unfold extends_step. repeat grows_step. Qed.

Lemma implements_step_grows pkg fqcn g i : grows g (implements_step pkg fqcn g i).
Proof. unfold implements_step. repeat grows_step. Qed.

Lemma field_step_grows fqcn tname g d : grows g (field_step fqcn tname g d).
Proof. unfold field_step. repeat grows_step. Qed.

Lemma call_step_grows mid g inv : grows g (call_step mid g inv).
Proof. unfold call_step. repeat grows_step. Qed.

Lemma member_step_grows fqcn g m : grows g (member_step fqcn g m).
Proof.
  unfold member_step. destruct m as [tname ds | name ps rt body invs |].
  - apply grows_fold_left; [apply field_step_grows | done].
  - destruct body.
    + apply grows_fold_left; [apply call_step_grows | repeat grows_step].
    + repeat grows_step.
  - done.
Qed.

Lemma import_step_grows path g imp : grows g (import_step path g imp).
Proof. unfold import_step. repeat grows_step. Qed.

Lemma package_step_grows pkg path g : grows g (package_step pkg path g).
Proof.
  unfold package_step. destruct pkg as [p|]; [|done].
  destruct (truthy p); repeat grows_step.
Qed.

Lemma type_step_grows pkg path g cls : grows g (type_step pkg path g cls).
Proof.
  unfold type_step.
  apply grows_fold_left; [apply member_step_grows|].
  apply grows_fold_left; [apply implements_step_grows|].
  destruct (td_extends cls).
  - repeat grows_step.
  - etrans; [|apply extends_step_grows]. repeat grows_step.
  - apply grows_fold_left; [apply extends_step_grows | repeat grows_step].
Qed.

Section TraversalGrows.
Context `{OsPath}.
Variable parse : string → option CompilationUnit.

Lemma file_step_grows root g fname : grows g (file_step parse root g fname).
Proof.
  unfold file_step. destruct (negb _); [done|].
  destruct (parse_java_file parse _) as [[pkg imports] types].
  apply grows_fold_left; [apply type_step_grows|].
  apply grows_fold_left; [apply import_step_grows|].
  etrans; [|apply package_step_grows]. repeat grows_step.
Qed.

Lemma dir_step_grows g entry : grows g (dir_step parse g entry).
Proof. unfold dir_step. apply grows_fold_left; [apply file_step_grows | done]. Qed.

(** A longer traversal only appends to what a shorter one produced. *)
Lemma traverse_app_grows walk1 walk2 :
  grows (traverse parse walk1) (traverse parse (walk1 ++ walk2)).
Proof.
  unfold traverse. rewrite fold_left_app.
  apply grows_fold_left; [apply dir_step_grows | done].
Qed.
End TraversalGrows.

(** ** Graph Builder: the registry invariant *)

Lemma seen_get_add k k' x s :
  seen_get k' (seen_add k x s) =
    if decide (k = k') then {[x]} ∪ seen_get k' s else seen_get k' s.
Proof. by destruct k, k'. Qed.

Lemma empty_graph_registry_ok : registry_ok empty_graph.
Proof.
  split.
  - intros k. apply NoDup_nil_2.
  - by intros n ?%elem_of_nil.
  - intros k x Hx. destruct k; by apply elem_of_empty in Hx.
Qed.

Lemma add_edge_registry_ok e g : registry_ok g → registry_ok (add_edge e g).
Proof. intros [H1 H2 H3]. by split. Qed.

(** Registering a record in the space of its type keeps the invariant. *)
Lemma append_unseen_registry_ok k n g :
  key_of (n_type n) = k → registry_ok g → registry_ok (append_unseen k n g).
Proof.
  intros Hk [Hnd Hc Hs]. unfold append_unseen.
  destruct (decide (n_id n ∈ seen_get k (seen g))) as [Hin|Hnin]; [by split|].
  split; cbn [nodes seen].
  - intros k'. unfold space. rewrite filter_app, fmap_app.
    rewrite filter_cons, filter_nil.
    destruct (decide (key_of (n_type n) = k')) as [Hk'|Hk'].
    + apply NoDup_app. split_and!; [apply Hnd | | apply NoDup_singleton].
      intros x (m & -> & [Hm1 Hm2]%list_elem_of_filter)%list_elem_of_fmap
               ?%list_elem_of_singleton.
      apply Hnin. replace (n_id n) with (n_id m) by done.
      rewrite <- Hk, Hk', <- Hm1. by apply Hc.
    + rewrite app_nil_r. apply Hnd.
  - intros m [Hm | ->%list_elem_of_singleton]%elem_of_app.
    + rewrite seen_get_add. case_decide; [|by apply Hc].
      apply elem_of_union. right. by apply Hc.
    + rewrite seen_get_add, decide_True by done.
      apply elem_of_union. left. by apply elem_of_singleton.
  - intros k' x. rewrite seen_get_add.
    destruct (decide (k = k')) as [<-|Hne].
    + intros [->%elem_of_singleton | Hx]%elem_of_union.
      * exists n. split; [|done]. apply elem_of_app. right. by left.
      * destruct (Hs _ _ Hx) as (m & Hm & ?). exists m.
        split; [|done]. apply elem_of_app. by left.
    + intros Hx. destruct (Hs _ _ Hx) as (m & Hm & ?). exists m.
      split; [|done]. apply elem_of_app. by left.
Qed.

(** After [append_unseen] a record with the id stands in its space, either
    the one just appended or the one registered earlier. *)
Lemma append_unseen_registered k n g :
  key_of (n_type n) = k → registry_ok g →
  ∃ m, m ∈ nodes (append_unseen k n g) ∧ n_id m = n_id n ∧ key_of (n_type m) = k.
Proof.
  intros Hk [_ _ Hs]. unfold append_unseen.
  destruct (decide (n_id n ∈ seen_get k (seen g))) as [Hin|Hnin].
  - by apply Hs.
  - exists n. split; [|done]. cbn. apply elem_of_app. right. by left.
Qed.

Lemma fold_left_inv {A} (P : Graph → Prop) (f : Graph → A → Graph) l g :
  (∀ g x, P g → P (f g x)) → P g → P (fold_left f l g).
Proof.
  intros Hf. revert g. induction l as [|x l IH]; intros g Hg; [done|].
  cbn. by apply IH, Hf.
Qed.

(** While a loop runs over [l], the element [x] of [l] is processed in some
    state [g1] that satisfies the loop invariant, and what it produces is
    kept until the end. *)
Lemma fold_left_visit {A} (P : Graph → Prop) (f : Graph → A → Graph) l g x :
  (∀ g y, P g → P (f g y)) → (∀ g y, grows g (f g y)) → P g → x ∈ l →
  ∃ g1, P g1 ∧ grows g g1 ∧ grows (f g1 x) (fold_left f l g).
Proof.
  intros HP Hgr. revert g. induction l as [|y l IH]; intros g Hg Hx.
  - by apply elem_of_nil in Hx.
  - apply elem_of_cons in Hx as [->|Hx].
    + exists g. split_and!; [done | done |].
      cbn. by apply grows_fold_left.
    + destruct (IH (f g y)) as (g1 & HP1 & Hg1 & Hfin); [by apply HP | done |].
      exists g1. split_and!; [done | | done]. etrans; [apply Hgr | exact Hg1].
Qed.

Ltac registry_step :=
  first [ assumption
        | apply add_edge_registry_ok
        | apply append_unseen_registry_ok; [reflexivity | ]
        | apply fold_left_inv; [intros ? ? ? | ] ].

Lemma extends_step_registry_ok pkg fqcn g p :
  registry_ok g → registry_ok (extends_step pkg fqcn g p).
Proof. intros. unfold extends_step. repeat registry_step. Qed.

Lemma implements_step_registry_ok pkg fqcn g i :
  registry_ok g → registry_ok (implements_step pkg fqcn g i).
Proof. intros. unfold implements_step. repeat registry_step. Qed.

Lemma field_step_registry_ok fqcn tname g d :
  registry_ok g → registry_ok (field_step fqcn tname g d).
Proof. intros. unfold field_step. repeat registry_step. Qed.

Lemma call_step_registry_ok mid g inv :
  registry_ok g → registry_ok (call_step mid g inv).
Proof. intros. unfold call_step. repeat registry_step. Qed.

Lemma member_step_registry_ok fqcn g m :
  registry_ok g → registry_ok (member_step fqcn g m).
Proof.
  intros. unfold member_step. destruct m as [tname ds | name ps rt body invs |].
  - apply fold_left_inv; [intros; by apply field_step_registry_ok | done].
  - destruct body.
    + apply fold_left_inv; [intros; by apply call_step_registry_ok |].
      repeat registry_step.
    + repeat registry_step.
  - done.
Qed.

Lemma import_step_registry_ok path g imp :
  registry_ok g → registry_ok (import_step path g imp).
Proof. intros. unfold import_step. repeat registry_step. Qed.

Lemma package_step_registry_ok pkg path g :
  registry_ok g → registry_ok (package_step pkg path g).
Proof.
  intros. unfold package_step. destruct pkg as [p|]; [|done].
  destruct (truthy p); repeat registry_step.
Qed.

Lemma type_step_registry_ok pkg path g cls :
  registry_ok g → registry_ok (type_step pkg path g cls).
Proof.
  intros. unfold type_step.
  apply fold_left_inv; [intros; by apply member_step_registry_ok|].
  apply fold_left_inv; [intros; by apply implements_step_registry_ok|].
  destruct (td_extends cls).
  - repeat registry_step.
  - apply extends_step_registry_ok. repeat registry_step.
  - apply fold_left_inv; [intros; by apply extends_step_registry_ok|].
    repeat registry_step.
Qed.

Section TraversalRegistry.
Context `{OsPath}.
Variable parse : string → option CompilationUnit.

Lemma file_step_registry_ok root g fname :
  registry_ok g → registry_ok (file_step parse root g fname).
Proof.
  intros. unfold file_step. destruct (negb _); [done|].
  destruct (parse_java_file parse _) as [[pkg imports] types].
  apply fold_left_inv; [intros; by apply type_step_registry_ok|].
  apply fold_left_inv; [intros; by apply import_step_registry_ok|].
  apply package_step_registry_ok. repeat registry_step.
Qed.

Lemma dir_step_registry_ok g entry :
  registry_ok g → registry_ok (dir_step parse g entry).
Proof.
  intros. unfold dir_step.
  apply fold_left_inv; [intros; by apply file_step_registry_ok | done].
Qed.

Lemma traverse_registry_ok walk : registry_ok (traverse parse walk).
Proof.
  unfold traverse. apply fold_left_inv;
    [intros; by apply dir_step_registry_ok | apply empty_graph_registry_ok].
Qed.
End TraversalRegistry.

(** In a list whose [P]-elements have pairwise distinct keys, two positions
    holding [P]-elements with the same key are the same position. *)
Lemma NoDup_filter_fmap_lookup {A B} (f : A → B) (P : A → Prop)
    `{∀ x, Decision (P x)} (l : list A) i j x y :
  NoDup (f <$> filter P l) →
  l !! i = Some x → l !! j = Some y → P x → P y → f x = f y → i = j.
Proof.
  revert i j. induction l as [|a l IH]; intros i j Hnd Hi Hj Hx Hy Hf; [done|].
  assert (∀ z, z ∈ l → P z → f z ∈ f <$> filter P l) as Hmem.
  { intros z Hz HPz. apply list_elem_of_fmap. exists z. split; [done|].
    by apply list_elem_of_filter. }
  rewrite filter_cons in Hnd.
  destruct i as [|i], j as [|j]; cbn in Hi, Hj; simplify_eq.
  - done.
  - rewrite decide_True in Hnd by done. rewrite fmap_cons in Hnd.
    apply NoDup_cons in Hnd as [Hnin _]. exfalso. apply Hnin.
    rewrite Hf. apply Hmem; [|done]. by eapply list_elem_of_lookup_2.
  - rewrite decide_True in Hnd by done. rewrite fmap_cons in Hnd.
    apply NoDup_cons in Hnd as [Hnin _]. exfalso. apply Hnin.
    rewrite <- Hf. apply Hmem; [|done]. by eapply list_elem_of_lookup_2.
  - f_equal. apply IH; try done.
    destruct (decide (P a)); [|done].
    rewrite fmap_cons in Hnd. by apply NoDup_cons in Hnd as [_ ?].
Qed.

Lemma key_of_class t : key_of t = Kclass ↔ t = TClass ∨ t = TInterface.
Proof. destruct t; cbn; split; (done || by intros [?|?] || eauto). Qed.

(** *** The class space is the first-seen candidates *)

Lemma keep_unseen_elem kept x n :
  n ∈ keep_unseen kept x ↔ n ∈ kept ∨ (n = x ∧ n_id x ∉ n_id <$> kept).
Proof.
  unfold keep_unseen. destruct (decide (n_id x ∈ n_id <$> kept)) as [Hin|Hnin].
  - split; [by left | by intros [?|[_ ?]]].
  - rewrite elem_of_app, list_elem_of_singleton.
    split; intros [?|?]; [by left | by right | by left | right; tauto].
Qed.

Lemma keep_unseen_ids kept x y :
  y ∈ n_id <$> keep_unseen kept x ↔ y ∈ n_id <$> kept ∨ y = n_id x.
Proof.
  unfold keep_unseen. destruct (decide (n_id x ∈ n_id <$> kept)) as [Hin|Hnin].
  - split; [by left | by intros [?| ->]].
  - rewrite fmap_app, elem_of_app. change (n_id <$> [x]) with [n_id x].
    by rewrite list_elem_of_singleton.
Qed.

Lemma fold_keep_unseen_elem l kept n :
  n ∈ fold_left keep_unseen l kept ↔
  n ∈ kept
  ∨ ∃ before after, l = before ++ n :: after ∧ (n_id n ∉ n_id <$> kept ++ before).
Proof.
  revert kept. induction l as [|x l IH]; intros kept.
  - cbn. split; [by left|]. intros [?|(b & a & Heq & _)]; [done|]. by destruct b.
  - cbn [fold_left]. rewrite IH, keep_unseen_elem. split.
    + intros [[Hk|[-> Hx]]|(b & a & -> & Hn)].
      * by left.
      * right. exists [], l. split; [done|]. by rewrite app_nil_r.
      * right. exists (x :: b), a. split; [done|].
        intros Hin. apply Hn. rewrite fmap_app, elem_of_app in Hin.
        rewrite fmap_cons, elem_of_cons in Hin.
        rewrite fmap_app, elem_of_app, keep_unseen_ids.
        destruct Hin as [?|[?|?]]; [left; by left | left; by right | by right].
    + intros [Hk|(b & a & Heq & Hn)]; [left; by left|].
      destruct b as [|y b]; cbn in Heq; simplify_eq.
      * left. right. split; [done|]. by rewrite app_nil_r in Hn.
      * right. exists b, a. split; [done|].
        intros Hin. apply Hn. rewrite fmap_app, elem_of_app in Hin.
        rewrite keep_unseen_ids in Hin.
        rewrite fmap_app, elem_of_app, fmap_cons, elem_of_cons.
        destruct Hin as [[?|?]|?]; [by left | right; by left | right; by right].
Qed.

Lemma registry_class_ids g x :
  registry_ok g → x ∈ seen_class (seen g) ↔ x ∈ n_id <$> space Kclass (nodes g).
Proof.
  intros [_ Hc Hs]. rewrite list_elem_of_fmap. split.
  - intros (n & Hn & <- & Hk)%(Hs Kclass). exists n. split; [done|].
    by apply list_elem_of_filter.
  - intros (n & -> & [Hk Hn]%list_elem_of_filter).
    specialize (Hc n Hn). by rewrite Hk in Hc.
Qed.

Lemma offers_id : offers (λ g, g) [].
Proof. by intros g Hok. Qed.

Lemma offers_compose (f h : Graph → Graph) c1 c2 :
  offers f c1 → offers h c2 → offers (λ g, h (f g)) (c1 ++ c2).
Proof.
  intros Hf Hh g Hok. destruct (Hf g Hok) as [Hok1 Heq1].
  destruct (Hh (f g) Hok1) as [Hok2 Heq2].
  split; [done|]. by rewrite Heq2, Heq1, fold_left_app.
Qed.

Lemma offers_add_edge e : offers (add_edge e) [].
Proof. intros g Hok. split; [by apply add_edge_registry_ok | done]. Qed.

Lemma offers_append_class n :
  key_of (n_type n) = Kclass → offers (append_unseen Kclass n) [n].
Proof.
  intros Hk g Hok. split; [by apply append_unseen_registry_ok|].
  cbn [fold_left]. unfold append_unseen, keep_unseen. cbn [seen_get].
  destruct (decide (n_id n ∈ seen_class (seen g))) as [Hin|Hnin].
  - by rewrite decide_True by (by apply registry_class_ids).
  - rewrite decide_False by (by rewrite <- registry_class_ids).
    cbn [nodes]. unfold space.
    by rewrite filter_app, filter_cons_True, filter_nil by done.
Qed.

Lemma offers_append_other k n :
  key_of (n_type n) = k → k ≠ Kclass → offers (append_unseen k n) [].
Proof.
  intros Hk Hne g Hok. split; [by apply append_unseen_registry_ok|].
  cbn [fold_left]. unfold append_unseen.
  destruct (decide (n_id n ∈ seen_get k (seen g))); [done|].
  cbn [nodes]. unfold space.
  rewrite filter_app, filter_cons_False, filter_nil by congruence.
  by rewrite app_nil_r.
Qed.

Lemma offers_class_with_edge n e :
  key_of (n_type n) = Kclass →
  offers (λ g, add_edge e (append_unseen Kclass n g)) [n].
Proof.
  intros Hk. rewrite <- (app_nil_r [n]).
  apply (offers_compose (append_unseen Kclass n) (add_edge e));
    [by apply offers_append_class | apply offers_add_edge].
Qed.

Lemma offers_other_with_edge k n e :
  key_of (n_type n) = k → k ≠ Kclass →
  offers (λ g, add_edge e (append_unseen k n g)) [].
Proof.
  intros Hk Hne.
  apply (offers_compose (append_unseen k n) (add_edge e) [] []);
    [by apply offers_append_other | apply offers_add_edge].
Qed.

Lemma offers_fold_left {A} (f : Graph → A → Graph) (c : A → list Node) (l : list A) :
  (∀ x, offers (λ g, f g x) (c x)) →
  offers (λ g, fold_left f l g) (flat_map c l).
Proof.
  intros Hf. induction l as [|x l IH]; [apply offers_id|].
  cbn [fold_left flat_map].
  apply (offers_compose (λ g, f g x) (λ g, fold_left f l g)); [apply Hf | exact IH].
Qed.

Lemma offers_fold_left_none {A} (f : Graph → A → Graph) (l : list A) :
  (∀ x, offers (λ g, f g x) []) → offers (λ g, fold_left f l g) [].
Proof.
  intros Hf. induction l as [|x l IH]; [apply offers_id|].
  cbn [fold_left].
  apply (offers_compose (λ g, f g x) (λ g, fold_left f l g) [] []);
    [apply Hf | exact IH].
Qed.

Lemma offers_fold_left_each {A} (f : Graph → A → Graph) (c : A → Node) (l : list A) :
  (∀ x, offers (λ g, f g x) [c x]) → offers (λ g, fold_left f l g) (c <$> l).
Proof.
  intros Hf. induction l as [|x l IH]; [apply offers_id|].
  cbn [fold_left]. rewrite fmap_cons.
  apply (offers_compose (λ g, f g x) (λ g, fold_left f l g) [c x]);
    [apply Hf | exact IH].
Qed.

Lemma member_step_offers fqcn m : offers (λ g, member_step fqcn g m) [].
Proof.
  unfold member_step. destruct m as [tname ds | name ps rt body invs |].
  - apply offers_fold_left_none. intros d.
    by apply (offers_other_with_edge Kfield).
  - destruct body.
    + apply (offers_compose (λ g, add_edge _ (append_unseen _ _ g))
               (λ g, fold_left (call_step _) invs g) [] []).
      * by apply (offers_other_with_edge Kmethod).
      * apply offers_fold_left_none. intros inv. apply offers_add_edge.
    + by apply (offers_other_with_edge Kmethod).
  - apply offers_id.
Qed.

Lemma extends_step_offers pkg fqcn parent :
  offers (λ g, extends_step pkg fqcn g parent)
         [stub_node (qualify pkg parent) parent TClass].
Proof. by apply offers_class_with_edge. Qed.

Lemma implements_step_offers pkg fqcn name :
  offers (λ g, implements_step pkg fqcn g name)
         [stub_node (qualify pkg name) name TInterface].
Proof. by apply offers_class_with_edge. Qed.

Lemma type_step_offers pkg path cls :
  offers (λ g, type_step pkg path g cls) (type_candidates pkg path cls).
Proof.
  unfold type_step, type_candidates.
  set (entry := class_entry _ _ _ _ _).
  set (ext := (λ parent, stub_node _ parent TClass) <$> _).
  set (impl := (λ name, stub_node _ name TInterface) <$> _).
  replace (entry :: ext ++ impl) with ((([entry] ++ ext) ++ impl) ++ [])
    by (by rewrite app_nil_r, <- app_assoc).
  apply (offers_compose
           (λ g, fold_left (implements_step pkg _) (td_implements cls)
                   match td_extends cls with
                   | NoExtends => add_edge _ (append_unseen Kclass _ g)
                   | ExtendsOne parent =>
                       extends_step pkg _ (add_edge _ (append_unseen Kclass _ g)) parent
                   | ExtendsList l =>
                       fold_left (extends_step pkg _) l
                         (add_edge _ (append_unseen Kclass _ g))
                   end)
           (λ g, fold_left (member_step _) (td_body cls) g)).
  - apply (offers_compose
             (λ g, match td_extends cls with
                   | NoExtends => add_edge _ (append_unseen Kclass _ g)
                   | ExtendsOne parent =>
                       extends_step pkg _ (add_edge _ (append_unseen Kclass _ g)) parent
                   | ExtendsList l =>
                       fold_left (extends_step pkg _) l
                         (add_edge _ (append_unseen Kclass _ g))
                   end)
             (λ g, fold_left (implements_step pkg _) (td_implements cls) g)).
    + subst ext. unfold superclass_refs.
      destruct (td_extends cls) as [|q|l].
      * rewrite app_nil_r. by apply offers_class_with_edge.
      * apply (offers_compose (λ g, add_edge _ (append_unseen Kclass _ g))
                 (λ g, extends_step pkg _ g q));
          [by apply offers_class_with_edge | apply extends_step_offers].
      * apply (offers_compose (λ g, add_edge _ (append_unseen Kclass _ g))
                 (λ g, fold_left (extends_step pkg _) l g)).
        -- by apply offers_class_with_edge.
        -- apply offers_fold_left_each. intros p. apply extends_step_offers.
    + apply offers_fold_left_each. intros i. apply implements_step_offers.
  - apply offers_fold_left_none. intros m. apply member_step_offers.
Qed.

Lemma package_step_offers pkg path : offers (λ g, package_step pkg path g) [].
Proof.
  unfold package_step. destruct pkg as [p|]; [|apply offers_id].
  destruct (truthy p); [by apply (offers_other_with_edge Kpackage) | apply offers_id].
Qed.

Section TraversalClassSpace.
Context `{OsPath}.
Variable parse : string → option CompilationUnit.

Lemma file_step_offers root fname :
  offers (λ g, file_step parse root g fname) (file_candidates parse root fname).
Proof.
  unfold file_step, file_candidates.
  destruct (endswith ".java" fname); cbn [negb]; [|apply offers_id].
  destruct (parse_java_file parse _) as [[pkg imports] types]. cbn [fst snd].
  apply (offers_compose
           (λ g, fold_left (import_step _) imports
                   (package_step pkg _ (append_unseen Kfile _ g)))
           (λ g, fold_left (type_step pkg _) types g) []).
  - apply (offers_compose
             (λ g, package_step pkg _ (append_unseen Kfile _ g))
             (λ g, fold_left (import_step _) imports g) [] []).
    + apply (offers_compose (append_unseen Kfile _)
               (λ g, package_step pkg _ g) [] []);
        [by apply offers_append_other | apply package_step_offers].
    + apply offers_fold_left_none. intros imp.
      by apply (offers_other_with_edge Kpackage).
  - apply offers_fold_left. intros cls. apply type_step_offers.
Qed.

Lemma dir_step_offers entry :
  offers (λ g, dir_step parse g entry)
         (flat_map (file_candidates parse entry.1) entry.2).
Proof.
  unfold dir_step. apply offers_fold_left. intros fname. apply file_step_offers.
Qed.

Lemma traverse_class_space walk :
  space Kclass (nodes (traverse parse walk))
  = first_seen (class_candidates parse walk).
Proof.
  unfold traverse, first_seen, class_candidates.
  by destruct (offers_fold_left (dir_step parse) _ walk dir_step_offers
                 empty_graph empty_graph_registry_ok) as [_ ->].
Qed.
End TraversalClassSpace.

(** C9: classes, interfaces and inherited-name stubs share one identity
    space.  In the nodes accumulated by any traversal no two entries of type
    [class] or [interface], in any mix, carry the same id; entries are never
    removed or replaced: what an initial part of the traversal appended
    stays, as it is, at the front of the final node list; every such entry
    is registered in [seen['class']].  And only the first-seen record is
    kept: the entries of type [class] or [interface] are, in order, the
    records of the declarations and stub references of the traversal (the
    candidates) with every record dropped whose id an earlier candidate
    carries, be it one of the same file, of the same directory or of
    another one; that is, a record is kept exactly when it is a candidate
    that no candidate with the same id precedes. *)
Theorem C9_one_identity_space `{OsPath}
    (parse : string → option CompilationUnit)
    (walk1 walk2 : list (string * list string)) :
  let g := traverse parse (walk1 ++ walk2) in
  let candidates := class_candidates parse (walk1 ++ walk2) in
  (∀ i j n m,
     nodes g !! i = Some n → nodes g !! j = Some m →
     n_type n = TClass ∨ n_type n = TInterface →
     n_type m = TClass ∨ n_type m = TInterface →
     n_id n = n_id m → i = j)
  ∧ nodes (traverse parse walk1) `prefix_of` nodes g
  ∧ (∀ n, n ∈ nodes g → n_type n = TClass ∨ n_type n = TInterface →
          n_id n ∈ seen_class (seen g))
  ∧ space Kclass (nodes g) = first_seen candidates
  ∧ (∀ n, n ∈ nodes g ∧ (n_type n = TClass ∨ n_type n = TInterface) ↔
          ∃ before after,
            candidates = before ++ n :: after ∧ (n_id n ∉ n_id <$> before)).
Proof.
  cbn zeta. pose proof (traverse_registry_ok parse (walk1 ++ walk2)) as [Hnd Hc _].
  split_and!.
  - intros i j n m Hi Hj Hn Hm Hid.
    eapply (NoDup_filter_fmap_lookup n_id (λ n, key_of (n_type n) = Kclass));
      [apply (Hnd Kclass) | exact Hi | exact Hj | | | done];
      by apply key_of_class.
  - apply traverse_app_grows.
  - intros n Hn Ht%key_of_class. specialize (Hc n Hn). by rewrite Ht in Hc.
  - apply traverse_class_space.
  - intros n.
    transitivity (n ∈ space Kclass (nodes (traverse parse (walk1 ++ walk2)))).
    + unfold space. rewrite list_elem_of_filter, key_of_class. tauto.
    + rewrite traverse_class_space. unfold first_seen.
      rewrite fold_keep_unseen_elem. split.
      * intros [Hnil|Hex]; [by apply elem_of_nil in Hnil | exact Hex].
      * intros Hex. by right.
Qed.

(** C9 at work: [A.java] declares [class A implements B] and [B.java], the
    next file of the same directory, declares [B].  The stub that the
    reference made, an [interface] record without ["file"] entry, was seen
    first and is the record kept under [p.B]; the record of the declaration
    of [B] is not appended. *)
Lemma C9_stub_seen_first_is_kept :
  let g := traverse named_parse (named_walk "/src") in
  space Kclass (nodes g)
  = [class_entry "p.A" "A" (Some "p") "/src/p/A.java" named_A;
     stub_node "p.B" "B" TInterface]
  ∧ class_entry "p.B" "B" (Some "p") "/src/p/B.java" named_B ∉ nodes g.
Proof.
  cbn zeta.
  pose proof (C9_one_identity_space named_parse [] (named_walk "/src")) as HC9.
  change ([] ++ named_walk "/src") with (named_walk "/src") in HC9.
  destruct HC9 as (_ & _ & _ & Hfirst & Hkept).
  split.
  - rewrite Hfirst. vm_compute. reflexivity.
  - intros Hin.
    destruct (proj1 (Hkept (class_entry "p.B" "B" (Some "p") "/src/p/B.java" named_B)))
      as (before & after & Heq & Hnot); [split; [exact Hin | by left]|].
    revert Heq Hnot. vm_compute class_candidates.
    intros Heq Hnot.
    destruct before as [|b1 [|b2 [|b3 before]]]; cbn in Heq; simplify_eq.
    + apply Hnot. apply (bool_decide_unpack _). vm_compute. exact I.
    + by destruct before.
Defined.

(** ** Graph Builder: what a type declaration contributes *)

Lemma truthy_spec s : truthy s = true ↔ s ≠ "".
Proof.
  unfold truthy. rewrite negb_true_iff. apply String.eqb_neq.
Qed.

(** [qualify], applied to the [pkg] that [parse_java_file] returns, follows
    the written rule whenever package names are non-empty. *)
Lemma qualify_spec (package : option string) (name : string) :
  package ≠ Some "" →
  qualify (Some (default "" package)) name = qualified_id package name.
Proof.
  intros Hne. destruct package as [p|]; cbn; [|done].
  assert (truthy p = true) as -> by (apply truthy_spec; congruence). done.
Qed.

Lemma type_emitted_grows g g' pkg path cls :
  grows g g' → type_emitted g pkg path cls → type_emitted g' pkg path cls.
Proof.
  intros Hg (H1 & H2 & H3 & H4). unfold type_emitted. split_and!.
  - by eapply grows_type_registered.
  - by eapply grows_edges.
  - intros p Hp. destruct (H3 p Hp).
    split; [by eapply grows_edges | by eapply grows_type_registered].
  - intros i Hi. destruct (H4 i Hi).
    split; [by eapply grows_edges | by eapply grows_type_registered].
Qed.

Lemma add_edge_last e g : e ∈ edges (add_edge e g).
Proof. cbn. apply elem_of_app. right. by left. Qed.

Lemma extends_step_emits pkg fqcn g p :
  registry_ok g →
  mkEdge fqcn (qualify pkg p) EExtends ∈ edges (extends_step pkg fqcn g p)
  ∧ type_registered (extends_step pkg fqcn g p) (qualify pkg p).
Proof.
  intros Hok. unfold extends_step. split; [apply add_edge_last|].
  eapply grows_type_registered; [apply grows_add_edge; reflexivity|].
  by apply (append_unseen_registered Kclass (stub_node _ _ TClass)).
Qed.

Lemma implements_step_emits pkg fqcn g i :
  registry_ok g →
  mkEdge fqcn (qualify pkg i) EImplements ∈ edges (implements_step pkg fqcn g i)
  ∧ type_registered (implements_step pkg fqcn g i) (qualify pkg i).
Proof.
  intros Hok. unfold implements_step. split; [apply add_edge_last|].
  eapply grows_type_registered; [apply grows_add_edge; reflexivity|].
  by apply (append_unseen_registered Kclass (stub_node _ _ TInterface)).
Qed.

Lemma type_step_emits pkg path g cls :
  registry_ok g → type_emitted (type_step pkg path g cls) pkg path cls.
Proof.
  intros Hok. unfold type_step.
  set (fqcn := qualify pkg (td_name cls)).
  set (g1 := append_unseen Kclass _ g).
  set (g2 := add_edge _ g1).
  set (g3 := match td_extends cls with
             | NoExtends => g2
             | ExtendsOne parent => extends_step pkg fqcn g2 parent
             | ExtendsList l => fold_left (extends_step pkg fqcn) l g2
             end).
  set (g4 := fold_left (implements_step pkg fqcn) (td_implements cls) g3).
  set (g5 := fold_left (member_step fqcn) (td_body cls) g4).
  assert (registry_ok g2) as Hok2.
  { apply add_edge_registry_ok. by apply append_unseen_registry_ok. }
  assert (grows g2 g3) as H23.
  { subst g3. destruct (td_extends cls);
      [done | apply extends_step_grows
       | apply grows_fold_left; [apply extends_step_grows | done]]. }
  assert (registry_ok g3) as Hok3.
  { subst g3. destruct (td_extends cls);
      [done | by apply extends_step_registry_ok
       | apply fold_left_inv; [intros; by apply extends_step_registry_ok | done]]. }
  assert (grows g3 g4) as H34.
  { apply grows_fold_left; [apply implements_step_grows | done]. }
  assert (grows g4 g5) as H45.
  { apply grows_fold_left; [apply member_step_grows | done]. }
  assert (grows g2 g5) as H25 by (etrans; [exact H23|]; by etrans).
  unfold type_emitted. fold fqcn. split_and!.
  - eapply grows_type_registered; [exact H25|].
    eapply grows_type_registered; [apply grows_add_edge; reflexivity|].
    by apply (append_unseen_registered Kclass (class_entry _ _ _ _ _)).
  - eapply grows_edges; [exact H25 | apply add_edge_last].
  - intros p Hp.
    assert (mkEdge fqcn (qualify pkg p) EExtends ∈ edges g3
            ∧ type_registered g3 (qualify pkg p)) as [He Hr].
    { subst g3. unfold superclass_refs in Hp. destruct (td_extends cls) as [|q|l].
      - by apply elem_of_nil in Hp.
      - apply list_elem_of_singleton in Hp as ->. by apply extends_step_emits.
      - destruct (fold_left_visit registry_ok (extends_step pkg fqcn) l g2 p)
          as (ga & Hoka & _ & Hfin);
          [intros; by apply extends_step_registry_ok
          | intros; apply extends_step_grows | done | done |].
        destruct (extends_step_emits pkg fqcn ga p Hoka).
        split; [by eapply grows_edges | by eapply grows_type_registered]. }
    assert (grows g3 g5) as H35 by by etrans.
    split; [by eapply grows_edges | by eapply grows_type_registered].
  - intros i Hi.
    destruct (fold_left_visit registry_ok (implements_step pkg fqcn)
                (td_implements cls) g3 i)
      as (ga & Hoka & _ & Hfin);
      [intros; by apply implements_step_registry_ok
      | intros; apply implements_step_grows | done | done |].
    destruct (implements_step_emits pkg fqcn ga i Hoka).
    fold g4 in Hfin.
    split; [eapply grows_edges; [exact H45|]; by eapply grows_edges
           | eapply grows_type_registered; [exact H45|];
             by eapply grows_type_registered].
Qed.

Section TraversalEmits.
Context `{OsPath}.
Variable parse : string → option CompilationUnit.

Lemma file_step_emits root g fname cu cls :
  registry_ok g →
  endswith ".java" fname = true →
  parse (os_join root fname) = Some cu →
  cls ∈ cu_types cu → is_class_or_interface cls = true →
  type_emitted (file_step parse root g fname)
               (Some (default "" (cu_package cu))) (os_join root fname) cls.
Proof.
  intros Hok Hjava Hparse Hcls Hkind. unfold file_step, parse_java_file.
  rewrite Hjava, Hparse. cbn [negb].
  match goal with
  | |- type_emitted (fold_left ?f ?l ?g0) ?pkg ?path _ =>
      destruct (fold_left_visit registry_ok f l g0 cls)
        as (ga & Hoka & _ & Hfin)
  end.
  - intros; by apply type_step_registry_ok.
  - intros; apply type_step_grows.
  - apply fold_left_inv; [intros; by apply import_step_registry_ok|].
    apply package_step_registry_ok. by apply append_unseen_registry_ok.
  - by apply list_elem_of_filter.
  - eapply type_emitted_grows; [exact Hfin|]. by apply type_step_emits.
Qed.

Lemma traverse_emits walk root files fname cu cls :
  (root, files) ∈ walk → fname ∈ files →
  endswith ".java" fname = true →
  parse (os_join root fname) = Some cu →
  cls ∈ cu_types cu → is_class_or_interface cls = true →
  type_emitted (traverse parse walk)
               (Some (default "" (cu_package cu))) (os_join root fname) cls.
Proof.
  intros Hdir Hfile Hjava Hparse Hcls Hkind. unfold traverse.
  destruct (fold_left_visit registry_ok (dir_step parse) walk empty_graph
              (root, files)) as (ga & Hoka & _ & Hfin);
    [intros; by apply dir_step_registry_ok | intros; apply dir_step_grows
    | apply empty_graph_registry_ok | done |].
  eapply type_emitted_grows; [exact Hfin|]. unfold dir_step. cbn [fst snd].
  destruct (fold_left_visit registry_ok (file_step parse root) files ga fname)
    as (gb & Hokb & _ & Hfin');
    [intros; by apply file_step_registry_ok | intros; apply file_step_grows
    | done | done |].
  eapply type_emitted_grows; [exact Hfin'|]. by apply file_step_emits.
Qed.
End TraversalEmits.

(** ** Graph Builder: the records of declared types *)

Lemma add_edge_records Q e g : all_records Q g → all_records Q (add_edge e g).
Proof. done. Qed.

Lemma append_unseen_records Q k n g :
  Q n → all_records Q g → all_records Q (append_unseen k n g).
Proof.
  intros Hn Hg. unfold append_unseen. case_decide; [done|].
  intros m [Hm | ->%list_elem_of_singleton]%elem_of_app; [by apply Hg | done].
Qed.

Lemma no_file_record_qualified n : n_file n = None → record_qualified n.
Proof. intros Hf [? Hs]. congruence. Qed.

Ltac records_step :=
  first [ assumption
        | apply add_edge_records
        | apply append_unseen_records; [by apply no_file_record_qualified | ]
        | apply fold_left_inv; [intros ? ? ? | ] ].

Lemma member_step_records fqcn g m :
  all_records record_qualified g →
  all_records record_qualified (member_step fqcn g m).
Proof.
  intros. unfold member_step. destruct m as [tname ds | name ps rt body invs |].
  - unfold field_step. repeat records_step.
  - destruct body; unfold call_step; repeat records_step.
  - done.
Qed.

Lemma type_step_records pkg path g cls :
  all_records record_qualified g →
  all_records record_qualified (type_step pkg path g cls).
Proof.
  intros Hg. unfold type_step.
  apply fold_left_inv; [intros; by apply member_step_records|].
  unfold implements_step. apply fold_left_inv; [intros; repeat records_step|].
  assert (all_records record_qualified
            (add_edge (mkEdge path (qualify pkg (td_name cls)) EContains)
               (append_unseen Kclass
                  (class_entry (qualify pkg (td_name cls)) (td_name cls) pkg path cls)
                  g))) as Hg2.
  { apply add_edge_records, append_unseen_records; [|done]. by intros _. }
  unfold extends_step. destruct (td_extends cls); repeat records_step.
Qed.

Section TraversalRecords.
Context `{OsPath}.
Variable parse : string → option CompilationUnit.

Lemma file_step_records root g fname :
  all_records record_qualified g →
  all_records record_qualified (file_step parse root g fname).
Proof.
  intros. unfold file_step. destruct (negb _); [done|].
  destruct (parse_java_file parse _) as [[pkg imports] types].
  apply fold_left_inv; [intros; by apply type_step_records|].
  unfold import_step. apply fold_left_inv; [intros; repeat records_step|].
  unfold package_step. destruct pkg as [p|]; [destruct (truthy p)|];
    repeat records_step.
Qed.

Lemma traverse_records walk :
  all_records record_qualified (traverse parse walk).
Proof.
  unfold traverse, dir_step. apply fold_left_inv.
  - intros. apply fold_left_inv; [intros; by apply file_step_records | done].
  - by intros n ?%elem_of_nil.
Qed.
End TraversalRecords.

(** C8: every class or interface declaration of a visited, parsed file has
    a class-space node whose id is its simple name when the compilation unit
    has no package and [P + "." + name] when it has the package [P]; the
    file-to-type [contains] edge targets that id; each superclass and each
    interface reference is turned into an [extends] or [implements] edge
    from that id to the referenced simple name qualified in the same way with
    the package of the declaring unit, and a class-space node with that id
    exists.  Moreover every record of a declared type carries the id built
    from its own ["package"] and ["name"] entries. *)
Theorem C8_qualification_rule `{OsPath}
    (parse : string → option CompilationUnit)
    (walk : list (string * list string)) (root : string) (files : list string)
    (fname : string) (cu : CompilationUnit) (cls : TypeDecl) :
  (root, files) ∈ walk → fname ∈ files →
  endswith ".java" fname = true →
  parse (os_join root fname) = Some cu →
  cls ∈ cu_types cu → is_class_or_interface cls = true →
  cu_package cu ≠ Some "" →
  let g := traverse parse walk in
  let path := os_join root fname in
  let tid := qualified_id (cu_package cu) (td_name cls) in
  (∃ n, n ∈ nodes g ∧ n_id n = tid ∧ (n_type n = TClass ∨ n_type n = TInterface))
  ∧ mkEdge path tid EContains ∈ edges g
  ∧ (∀ p, p ∈ superclass_refs cls →
          mkEdge tid (qualified_id (cu_package cu) p) EExtends ∈ edges g
          ∧ ∃ n, n ∈ nodes g ∧ n_id n = qualified_id (cu_package cu) p
                 ∧ (n_type n = TClass ∨ n_type n = TInterface))
  ∧ (∀ i, i ∈ td_implements cls →
          mkEdge tid (qualified_id (cu_package cu) i) EImplements ∈ edges g
          ∧ ∃ n, n ∈ nodes g ∧ n_id n = qualified_id (cu_package cu) i
                 ∧ (n_type n = TClass ∨ n_type n = TInterface))
  ∧ (∀ n P, n ∈ nodes g → is_Some (n_file n) →
            (n_package n = Some "" → n_id n = n_name n)
            ∧ (n_package n = Some P → P ≠ "" → n_id n = P +:+ "." +:+ n_name n)).
Proof.
  intros Hdir Hfile Hjava Hparse Hcls Hkind Hpkg. cbn zeta.
  destruct (traverse_emits parse walk root files fname cu cls)
    as (H1 & H2 & H3 & H4); try done.
  rewrite !qualify_spec in H1, H2 by done.
  assert (∀ x, type_registered (traverse parse walk) x →
               ∃ n, n ∈ nodes (traverse parse walk) ∧ n_id n = x
                    ∧ (n_type n = TClass ∨ n_type n = TInterface)) as Hreg.
  { intros x (n & Hn & Hid & Hk). exists n. by rewrite <- key_of_class. }
  split_and!.
  - by apply Hreg.
  - done.
  - intros p Hp. destruct (H3 p Hp) as [He Hr].
    repeat rewrite qualify_spec in He by done.
    rewrite qualify_spec in Hr by done. split; [done | by apply Hreg].
  - intros i Hi. destruct (H4 i Hi) as [He Hr].
    repeat rewrite qualify_spec in He by done.
    rewrite qualify_spec in Hr by done. split; [done | by apply Hreg].
  - intros n P Hn Hf. destruct (traverse_records parse walk n Hn Hf) as [_ Hid].
    split.
    + intros HP. by rewrite Hid, HP.
    + intros HP Hne. rewrite Hid, HP. cbn.
      assert (truthy P = true) as -> by by apply truthy_spec. done.
Qed.

(** ** Graph Builder: [contains] edges join registered nodes *)

Lemma append_unseen_edges k n g : edges (append_unseen k n g) = edges g.
Proof. unfold append_unseen. by case_decide. Qed.

Lemma append_unseen_node_ids k n g x :
  x ∈ node_ids g → x ∈ node_ids (append_unseen k n g).
Proof. apply grows_node_ids, grows_append_unseen. reflexivity. Qed.

Lemma append_unseen_self k n g :
  key_of (n_type n) = k → registry_ok g → n_id n ∈ node_ids (append_unseen k n g).
Proof.
  intros Hk Hok. destruct (append_unseen_registered k n g Hk Hok) as (m & Hm & <- & _).
  unfold node_ids. apply list_elem_of_fmap. by exists m.
Qed.

(** The statement pair "register [n], append [e]": fine when [e] is not a
    [contains] edge or joins ids that are registered by then. *)
Lemma register_edge_well_built k n e g :
  key_of (n_type n) = k → well_built g →
  (etype e = EContains →
     (source e ∈ node_ids g ∨ source e = n_id n)
     ∧ (target e ∈ node_ids g ∨ target e = n_id n)) →
  well_built (add_edge e (append_unseen k n g)).
Proof.
  intros Hk [Hok Hcl] He. split.
  - by apply add_edge_registry_ok, append_unseen_registry_ok.
  - intros e' [Hin | ->%list_elem_of_singleton]%elem_of_app Hty.
    + rewrite append_unseen_edges in Hin.
      destruct (Hcl e' Hin Hty). split; by apply append_unseen_node_ids.
    + destruct (He Hty) as [Hs Ht].
      split; [destruct Hs as [?| ->] | destruct Ht as [?| ->]];
        (by apply append_unseen_node_ids) || (by apply append_unseen_self).
Qed.

Lemma add_edge_well_built e g :
  well_built g → etype e ≠ EContains → well_built (add_edge e g).
Proof.
  intros [Hok Hcl] He. split; [by apply add_edge_registry_ok|].
  intros e' [Hin | ->%list_elem_of_singleton]%elem_of_app Hty; [|done].
  by apply Hcl.
Qed.

(** A loop whose body keeps the invariant and the presence of [x]. *)
Lemma fold_left_well_built {A} (f : Graph → A → Graph) l x g :
  (∀ g y, grows g (f g y)) →
  (∀ g y, well_built g → x ∈ node_ids g → well_built (f g y)) →
  well_built g → x ∈ node_ids g →
  well_built (fold_left f l g) ∧ x ∈ node_ids (fold_left f l g).
Proof.
  intros Hgr Hf. revert g. induction l as [|y l IH]; intros g Hg Hx; [done|].
  cbn. apply IH; [by apply Hf | eapply grows_node_ids; [apply Hgr | done]].
Qed.

Lemma extends_step_well_built pkg fqcn g p :
  well_built g → well_built (extends_step pkg fqcn g p).
Proof. intros. by apply register_edge_well_built. Qed.

Lemma implements_step_well_built pkg fqcn g i :
  well_built g → well_built (implements_step pkg fqcn g i).
Proof. intros. by apply register_edge_well_built. Qed.

Lemma import_step_well_built path g imp :
  well_built g → well_built (import_step path g imp).
Proof. intros. by apply register_edge_well_built. Qed.

Lemma call_step_well_built mid g inv :
  well_built g → well_built (call_step mid g inv).
Proof. intros. by apply add_edge_well_built. Qed.

Lemma field_step_well_built fqcn tname g d :
  well_built g → fqcn ∈ node_ids g → well_built (field_step fqcn tname g d).
Proof.
  intros Hg Hx. apply register_edge_well_built; [done | done |].
  intros _. cbn. split; [by left | by right].
Qed.

Lemma member_step_well_built fqcn g m :
  well_built g → fqcn ∈ node_ids g → well_built (member_step fqcn g m).
Proof.
  intros Hg Hx. unfold member_step.
  destruct m as [tname ds | name ps rt body invs |]; [| |done].
  - apply (fold_left_well_built (field_step fqcn tname) ds fqcn);
      [apply field_step_grows | apply field_step_well_built | done | done].
  - match goal with
    | |- context [add_edge ?e (append_unseen ?k ?n g)] =>
        assert (well_built (add_edge e (append_unseen k n g))) as Hg2
    end.
    { apply register_edge_well_built; [done | done |].
      intros _. cbn. split; [by left | by right]. }
    destruct body; [|done].
    apply fold_left_inv; [intros; by apply call_step_well_built | done].
Qed.

Lemma package_step_well_built pkg path g :
  well_built g → path ∈ node_ids g → well_built (package_step pkg path g).
Proof.
  intros Hg Hx. unfold package_step. destruct pkg as [p|]; [|done].
  destruct (truthy p); [|done].
  apply register_edge_well_built; [done | done |].
  intros _. cbn. split; [by right | by left].
Qed.

Lemma type_step_well_built pkg path g cls :
  well_built g → path ∈ node_ids g → well_built (type_step pkg path g cls).
Proof.
  intros Hg Hx. unfold type_step.
  set (fqcn := qualify pkg (td_name cls)).
  set (g1 := append_unseen Kclass _ g).
  set (g2 := add_edge _ g1).
  set (g3 := match td_extends cls with
             | NoExtends => g2
             | ExtendsOne parent => extends_step pkg fqcn g2 parent
             | ExtendsList l => fold_left (extends_step pkg fqcn) l g2
             end).
  set (g4 := fold_left (implements_step pkg fqcn) (td_implements cls) g3).
  assert (well_built g2) as Hg2.
  { apply register_edge_well_built; [done | done |].
    intros _. cbn. split; [by left | by right]. }
  assert (fqcn ∈ node_ids g2) as Hf2.
  { apply (grows_node_ids g1); [apply grows_add_edge; reflexivity|].
    apply (append_unseen_self Kclass (class_entry _ _ _ _ _)); [done | apply Hg]. }
  assert (well_built g3 ∧ grows g2 g3) as [Hg3 H23].
  { subst g3. destruct (td_extends cls) as [|q|l].
    - done.
    - split; [by apply extends_step_well_built | apply extends_step_grows].
    - split; [apply fold_left_inv; [intros; by apply extends_step_well_built | done]
             | apply grows_fold_left; [apply extends_step_grows | done]]. }
  assert (well_built g4 ∧ grows g3 g4) as [Hg4 H34].
  { split; [apply fold_left_inv; [intros; by apply implements_step_well_built | done]
           | apply grows_fold_left; [apply implements_step_grows | done]]. }
  apply (fold_left_well_built (member_step fqcn) (td_body cls) fqcn);
    [apply member_step_grows | apply member_step_well_built | done |].
  eapply grows_node_ids; [|exact Hf2]. by etrans.
Qed.

Section TraversalWellBuilt.
Context `{OsPath}.
Variable parse : string → option CompilationUnit.

Lemma file_step_well_built root g fname :
  well_built g → well_built (file_step parse root g fname).
Proof.
  intros Hg. unfold file_step. destruct (negb _); [done|].
  destruct (parse_java_file parse _) as [[pkg imports] types].
  set (path := os_join root fname).
  set (g1 := append_unseen Kfile _ g).
  assert (well_built g1) as Hg1.
  { destruct Hg as [Hok Hcl]. split; [by apply append_unseen_registry_ok|].
    intros e He Hty. subst g1. rewrite append_unseen_edges in He.
    destruct (Hcl e He Hty). split; by apply append_unseen_node_ids. }
  assert (path ∈ node_ids g1) as Hp1.
  { apply (append_unseen_self Kfile (file_node _ _)); [done | apply Hg]. }
  set (g2 := package_step pkg path g1).
  assert (well_built g2) as Hg2 by by apply package_step_well_built.
  assert (path ∈ node_ids g2) as Hp2.
  { eapply grows_node_ids; [apply package_step_grows | done]. }
  destruct (fold_left_well_built (import_step path) imports path g2) as [Hg3 Hp3];
    [apply import_step_grows | intros; by apply import_step_well_built
    | done | done |].
  apply (fold_left_well_built (type_step pkg path) types path);
    [apply type_step_grows | apply type_step_well_built | done | done].
Qed.

(** In the graph a traversal builds, both ends of every [contains] edge
    are ids of node records: the guard of line 128 never skips one. *)
Lemma traverse_well_built walk : well_built (traverse parse walk).
Proof.
  unfold traverse, dir_step. apply fold_left_inv.
  - intros. apply fold_left_inv; [intros; by apply file_step_well_built | done].
  - split; [apply empty_graph_registry_ok | by intros e ?%elem_of_nil].
Qed.
End TraversalWellBuilt.

(** ** Last writer wins *)

(** The parent recorded for the target of an acted-on edge that no later
    acted-on edge targets is the source of that edge. *)
Lemma assemble_last_writer ns l1 e l3 :
  links ns e →
  (∀ e', e' ∈ l3 → links ns e' → target e' ≠ target e) →
  parent (assemble ns (l1 ++ e :: l3)) !! target e = Some (source e).
Proof.
  intros He Hl3. rewrite assemble_parent, filter_app, filter_cons.
  rewrite decide_True by done.
  assert (filter (λ e', links ns e' ∧ target e' = target e) l3 = []) as ->.
  { clear He. induction l3 as [|e' l3 IH]; [done|].
    rewrite filter_cons_False.
    - apply IH. intros e'' He''. apply Hl3. by right.
    - intros [Hl Ht]. eapply Hl3; [by left | done | done]. }
  by rewrite last_snoc.
Qed.

(** C7: whenever the edge list that a traversal builds contains two
    [contains] edges that target the same id from two different sources, and
    is targeted by no further [contains] edge after the later of the two, the
    parent recorded for that target after assembly is the source of the later
    edge. *)
Theorem C7_last_writer_wins `{OsPath}
    (parse : string → option CompilationUnit)
    (walk : list (string * list string))
    (l1 l2 l3 : list Edge) (e1 e2 : Edge) :
  let g := traverse parse walk in
  edges g = l1 ++ e1 :: l2 ++ e2 :: l3 →
  etype e1 = EContains → etype e2 = EContains →
  target e1 = target e2 → source e1 ≠ source e2 →
  (∀ e, e ∈ l3 → etype e = EContains → target e ≠ target e2) →
  parent (assemble (nodes g) (edges g)) !! target e2 = Some (source e2).
Proof.
  cbn zeta. intros Hes _ Hty2 _ _ Hl3.
  destruct (traverse_well_built parse walk) as [_ Hcl].
  assert (e2 ∈ edges (traverse parse walk)) as Hin.
  { rewrite Hes. apply elem_of_app. right. right. apply elem_of_app. right. by left. }
  destruct (Hcl e2 Hin Hty2) as [Hs Ht].
  rewrite Hes.
  replace (l1 ++ e1 :: l2 ++ e2 :: l3) with ((l1 ++ e1 :: l2) ++ e2 :: l3)
    by (by rewrite <- app_assoc).
  apply assemble_last_writer.
  - done.
  - intros e' He' [Hty _]. by apply Hl3.
Qed.

(** C7 at work: [Foo] is contained in two files; the parent recorded is the
    file visited second. *)
Lemma C7_second_file_wins :
  let g := traverse twins_parse (twins_walk "/src") in
  parent (assemble (nodes g) (edges g)) !! "Foo" = Some "/src/app/b/Foo.java".
Proof.
  cbn zeta.
  apply (C7_last_writer_wins twins_parse (twins_walk "/src") [] [] []
           (mkEdge "/src/app/a/Foo.java" "Foo" EContains)
           (mkEdge "/src/app/b/Foo.java" "Foo" EContains)).
  - vm_compute. reflexivity.
  - reflexivity.
  - reflexivity.
  - reflexivity.
  - cbn. discriminate.
  - intros e He. by apply elem_of_nil in He.
Defined.

(** C8 at work: [Foo] of package [a] gets the id [a.Foo] and its superclass
    reference [Base] the id [a.Base]; [Foo] of the default package gets the
    id [Foo]. *)
Lemma C8_qualified_and_plain_ids :
  (mkEdge "/src/a/Foo.java" "a.Foo" EContains
     ∈ edges (traverse shadow_parse (shadow_walk "/src"))
   ∧ mkEdge "a.Foo" "a.Base" EExtends
       ∈ edges (traverse shadow_parse (shadow_walk "/src")))
  ∧ mkEdge "/src/app/a/Foo.java" "Foo" EContains
      ∈ edges (traverse twins_parse (twins_walk "/src")).
Proof.
  split.
  - destruct (C8_qualification_rule shadow_parse (shadow_walk "/src") "/src/a"
                ["Foo.java"] "Foo.java" shadow_cu shadow_cls)
      as (_ & Hc & He & _).
    + cbn. right. by left.
    + by left.
    + reflexivity.
    + reflexivity.
    + by left.
    + reflexivity.
    + discriminate.
    + split; [exact Hc|]. apply (He "Base"). by left.
  - destruct (C8_qualification_rule twins_parse (twins_walk "/src") "/src/app/a"
                ["Foo.java"] "Foo.java" (mkCU None [] [plain_class "Foo"])
                (plain_class "Foo"))
      as (_ & Hc & _).
    + cbn. right. by left.
    + by left.
    + reflexivity.
    + reflexivity.
    + by left.
    + reflexivity.
    + discriminate.
    + exact Hc.
Defined.

(** C10 at work: the imported [package] node is parentless, so it is the only
    root, and the file node of the package-less [Main.java] is not part of
    the hierarchy. *)
Lemma C10_package_root_hides_file :
  let g := traverse app_parse (app_walk "/src") in
  let f := assemble (nodes g) (edges g) in
  roots f = ["app.util.Helper"]
  ∧ ¬ exported (node_map f) (roots f) "/src/app/Main.java".
Proof.
  cbn zeta.
  destruct (C10_package_roots_hide_other_roots
              (nodes (traverse app_parse (app_walk "/src")))
              (edges (traverse app_parse (app_walk "/src"))))
    as (Hr & _ & Hx).
  - exists "app.util.Helper". split_and!.
    + apply (bool_decide_unpack _). vm_compute. exact I.
    + vm_compute. reflexivity.
    + vm_compute. reflexivity.
  - split.
    + rewrite Hr. vm_compute. reflexivity.
    + destruct (Hx "/src/app/Main.java") as (_ & _ & Hne & _).
      * apply (bool_decide_unpack _). vm_compute. exact I.
      * vm_compute. reflexivity.
      * vm_compute. reflexivity.
      * exact Hne.
Defined.

(** ** Files the parser fails on *)

Section ParseFailure.
Context `{OsPath}.
Variable parse : string → option CompilationUnit.

(** For a file the parser fails on, the loop body still runs its first
    statement: the file node is registered; nothing else is. *)
Lemma file_step_parse_failure root g fname :
  endswith ".java" fname = true →
  parse (os_join root fname) = None →
  file_step parse root g fname
  = append_unseen Kfile (file_node (os_join root fname) fname) g.
Proof.
  intros Hjava Hparse. unfold file_step, parse_java_file.
  by rewrite Hjava, Hparse.
Qed.

Lemma parse_failure_contribution root g fname :
  endswith ".java" fname = true →
  parse (os_join root fname) = None →
  os_join root fname ∉ seen_file (seen g) →
  nodes (file_step parse root g fname)
  = nodes g ++ [file_node (os_join root fname) fname]
  ∧ edges (file_step parse root g fname) = edges g.
Proof.
  intros Hjava Hparse Hnew. rewrite file_step_parse_failure by done.
  unfold append_unseen. cbn [n_id file_node seen_get].
  by rewrite decide_False.
Qed.
End ParseFailure.

(** C1, the defect: in a directory with the unparseable [Bad.java] and the
    well-formed [Good.java] the traversal goes on to the second file, whose
    nodes and edge are present, and the failed file adds no edge; but it does
    add a node, its [file] node, which the claim excludes. *)
Theorem C1_failed_file_keeps_file_node :
  let g := traverse mixed_parse (mixed_walk "/src") in
  mixed_parse "/src/a/Bad.java" = None
  ∧ nodes g = [file_node "/src/a/Bad.java" "Bad.java";
               file_node "/src/a/Good.java" "Good.java";
               class_entry "Good" "Good" (Some "") "/src/a/Good.java"
                           (plain_class "Good")]
  ∧ edges g = [mkEdge "/src/a/Good.java" "Good" EContains].
Proof. cbn zeta. split_and!; vm_compute; reflexivity. Qed.

(** ** The modular export runs to completion *)

Section ModularExport.
Context `{OsPath}.

Lemma module_step_ok src_dir out_dir ns es written_modules item fs :
module_step src_dir out_dir ns es written_modules item fs
= (fs ++ [module_file src_dir out_dir ns es item],
   Ok (written_modules ++ [item.1])).
Proof.
unfold module_step, module_file, mbind, IO_bind.
rewrite mod_assemble_ok. reflexivity.
Qed.

Lemma for_each_module_step src_dir out_dir ns es items written_modules fs :
for_each (module_step src_dir out_dir ns es) items written_modules fs
= (fs ++ (module_file src_dir out_dir ns es <$> items),
   Ok (written_modules ++ items.*1)).
Proof.
revert written_modules fs.
induction items as [|item items IH]; intros written_modules fs.
- cbn. by rewrite !app_nil_r.
- cbn [for_each]. unfold mbind, IO_bind at 1. rewrite module_step_ok, IH.
  rewrite !fmap_cons, <- !app_assoc. reflexivity.
Qed.

(** With an output target that does not end in [.json] and names a
    directory (something is left of it once the trailing separators are
    stripped), no statement of [main] raises: it hands the serialiser one
    file per module key, in the order in which the keys first occur among
    the nodes, and then the sorted index. *)
Lemma main_modular_ok (parse : string → option CompilationUnit)
  (os_walk : string → list (string * list string))
  (src_dir output_file : string) (fs : Files) :
endswith ".json" output_file = false →
rstrip os_sep output_file ≠ "" →
let src := os_abspath src_dir in
let g := traverse parse (os_walk src) in
let out_dir := rstrip os_sep output_file in
let items := top_pkg_map src (nodes g) in
main parse os_walk src_dir output_file fs
= (fs ++ (module_file src out_dir (nodes g) (edges g) <$> items)
      ++ [(os_join out_dir "index.json", IndexDoc (sorted (dict_keys items)))],
   Ok tt).
Proof.
intros Hdir Hout. cbn zeta. unfold main. rewrite Hdir. cbn [negb].
unfold makedirs. rewrite decide_False by done.
unfold mbind, IO_bind at 1. cbn [mret IO_ret].
unfold mbind, IO_bind at 1. rewrite for_each_module_step.
unfold write_json, dict_keys. cbn [app]. by rewrite <- app_assoc.
Qed.

(** With a target of which stripping the separators leaves nothing (the
    empty string, [/], [//], ...) the directory cannot be created: [main]
    raises before it writes anything. *)
Lemma main_modular_no_directory (parse : string → option CompilationUnit)
  (os_walk : string → list (string * list string))
  (src_dir output_file : string) (fs : Files) :
endswith ".json" output_file = false →
rstrip os_sep output_file = "" →
main parse os_walk src_dir output_file fs = (fs, Raise (FileNotFoundError "")).
Proof.
intros Hdir Hout. unfold main. rewrite Hdir. cbn [negb]. cbn zeta.
rewrite Hout. reflexivity.
Qed.
End ModularExport.

(** ** The scenario of the specification *)

(** The graph built for the one-file tree of the specification: the nodes
    and the edges it lists, in the order the builder emits them. *)
Example acme_graph :
  let path := "/src/com/acme/Foo.java" in
  let g := traverse acme_parse (acme_walk "/src") in
  nodes g =
    [file_node path "Foo.java";
     package_node "com.acme";
     class_entry "com.acme.Foo" "Foo" (Some "com.acme") path acme_cls;
     stub_node "com.acme.Base" "Base" TClass;
     stub_node "com.acme.Runnable" "Runnable" TInterface;
     field_node "com.acme.Foo.x" "x" "int" "com.acme.Foo";
     method_node "com.acme.Foo.run()" "run" "run()" "com.acme.Foo" "void"]
  ∧ edges g =
    [mkEdge "com.acme" path EContains;
     mkEdge path "com.acme.Foo" EContains;
     mkEdge "com.acme.Foo" "com.acme.Base" EExtends;
     mkEdge "com.acme.Foo" "com.acme.Runnable" EImplements;
     mkEdge "com.acme.Foo" "com.acme.Foo.x" EContains;
     mkEdge "com.acme.Foo" "com.acme.Foo.run()" EContains;
     mkEdge "com.acme.Foo.run()" "Base.helper" ECalls]
  ∧ n_extends (class_entry "com.acme.Foo" "Foo" (Some "com.acme") path acme_cls)
    = Some (ExtName "Base")
  ∧ n_implements (class_entry "com.acme.Foo" "Foo" (Some "com.acme") path acme_cls)
    = Some ["Runnable"].
Proof. cbn zeta. split_and!; vm_compute; reflexivity. Qed.

(** Its hierarchy: the package is the only root and every node that has a
    ["package"] or ["path"] entry falls into module [com], the stubs and the
    members into [root]. *)
Example acme_forest :
  let g := traverse acme_parse (acme_walk "/src") in
  let f := assemble (nodes g) (edges g) in
  roots f = ["com.acme"]
  ∧ children_of (node_map f) "com.acme" = ["/src/com/acme/Foo.java"]
  ∧ children_of (node_map f) "/src/com/acme/Foo.java" = ["com.acme.Foo"]
  ∧ children_of (node_map f) "com.acme.Foo"
    = ["com.acme.Foo.x"; "com.acme.Foo.run()"]
  ∧ rels (edges g) =
    [mkEdge "com.acme.Foo" "com.acme.Base" EExtends;
     mkEdge "com.acme.Foo" "com.acme.Runnable" EImplements;
     mkEdge "com.acme.Foo.run()" "Base.helper" ECalls]
  ∧ _module_id "/src" <$> nodes g
    = ["com"; "com"; "com"; "root"; "root"; "root"; "root"].
Proof. cbn zeta. split_and!; vm_compute; reflexivity. Qed.

(** * Further properties of the code *)

(** ** The node map (line 123) *)

Lemma first_occurrences_snoc l x :
  first_occurrences (l ++ [x]) =
    if decide (x ∈ first_occurrences l) then first_occurrences l
    else first_occurrences l ++ [x].
Proof. unfold first_occurrences. by rewrite fold_left_app. Qed.

Lemma elem_of_first_occurrences l x : x ∈ first_occurrences l ↔ x ∈ l.
Proof.
  induction l as [|y l IH] using rev_ind; [done|].
  rewrite first_occurrences_snoc, elem_of_app, list_elem_of_singleton.
  case_decide as Hy.
  - rewrite IH. split; [by left|]. intros [?| ->]; [done | by apply IH].
  - by rewrite elem_of_app, list_elem_of_singleton, IH.
Qed.

Lemma first_occurrences_NoDup l : NoDup (first_occurrences l).
Proof.
  induction l as [|y l IH] using rev_ind; [apply NoDup_nil_2|].
  rewrite first_occurrences_snoc. case_decide; [done|].
  apply NoDup_app. split_and!; [done | | apply NoDup_singleton].
  by intros x Hx ->%list_elem_of_singleton.
Qed.

Lemma build_node_map_keys_order ns :
  dict_keys (build_node_map ns) = first_occurrences (n_id <$> ns).
Proof.
  induction ns as [|n ns IH] using rev_ind; [done|].
  rewrite build_node_map_snoc, dict_keys_set, fmap_app.
  change (n_id <$> [n]) with [n_id n].
  by rewrite first_occurrences_snoc, IH.
Qed.

Lemma build_node_map_lookup ns k :
  dict_get k (build_node_map ns) =
    (λ n, mkObj n []) <$> last (filter (λ n, n_id n = k) ns).
Proof.
  induction ns as [|n ns IH] using rev_ind; [done|].
  rewrite build_node_map_snoc, dict_get_set, filter_app, filter_cons, filter_nil.
  destruct (decide (k = n_id n)) as [->|Hne].
  - rewrite decide_True by done. by rewrite last_snoc.
  - rewrite decide_False by congruence. by rewrite app_nil_r.
Qed.

Lemma link_step_node f e k :
  o_node <$> dict_get k (node_map (link_step f e))
  = o_node <$> dict_get k (node_map f).
Proof.
  unfold link_step. repeat case_match; try done.
  cbn [node_map]. unfold append_child. rewrite dict_get_alter.
  destruct (decide (k = source e)); [|done].
  by destruct (dict_get k (node_map f)).
Qed.

Lemma assemble_node ns es k :
  o_node <$> dict_get k (node_map (assemble ns es))
  = last (filter (λ n, n_id n = k) ns).
Proof.
  induction es as [|e es IH] using rev_ind.
  - unfold assemble. cbn. rewrite build_node_map_lookup.
    by destruct (last _).
  - by rewrite assemble_snoc, link_step_node.
Qed.

(** X1: the node map holds one object per distinct node id, whatever the
    number and the types of the records that carry the id: its keys are the
    distinct ids in the order of their first occurrence, and the object
    under an id is made from the last record with that id. *)
Theorem node_map_one_object_per_id (ns : list Node) (es : list Edge) :
  let d := node_map (assemble ns es) in
  dict_keys d = first_occurrences (n_id <$> ns)
  ∧ NoDup (dict_keys d)
  ∧ (∀ k, k ∈ dict_keys d ↔ ∃ n, n ∈ ns ∧ n_id n = k)
  ∧ (∀ k, o_node <$> dict_get k d = last (filter (λ n, n_id n = k) ns)).
Proof.
  cbn zeta. rewrite assemble_keys. split_and!.
  - apply build_node_map_keys_order.
  - apply build_node_map_NoDup.
  - intros k. rewrite build_node_map_keys, list_elem_of_fmap. split.
    + intros (n & -> & Hn). by exists n.
    + intros (n & Hn & <-). by exists n.
  - apply assemble_node.
Qed.

(** ** Parent links and children lists (lines 125-130) *)

Lemma last_filter_elem {A} (P : A → Prop) `{∀ x, Decision (P x)} (l : list A) x :
  last (filter P l) = Some x → x ∈ l ∧ P x.
Proof.
  intros Hlast.
  assert (x ∈ filter P l) as [??]%list_elem_of_filter; [|done].
  destruct (filter P l) as [|y l'] using rev_ind; [done|].
  rewrite last_snoc in Hlast. injection Hlast as ->.
  apply elem_of_app. right. by left.
Qed.

(** X2: the parent links agree with the children lists in one direction
    only: the recorded parent of a node holds it in its [children] list and
    both are keys of the node map, and a node has a recorded parent exactly
    when some [children] list holds it. *)
Theorem parent_links_are_children (ns : list Node) (es : list Edge) :
  let f := assemble ns es in
  (∀ s t, parent f !! t = Some s →
          child (node_map f) s t
          ∧ s ∈ dict_keys (node_map f) ∧ t ∈ dict_keys (node_map f))
  ∧ (∀ t, is_Some (parent f !! t) ↔ ∃ p, child (node_map f) p t)
  ∧ (∀ p t, child (node_map f) p t → p ∈ dict_keys (node_map f)).
Proof.
  cbn zeta.
  assert (∀ s t, parent (assemble ns es) !! t = Some s →
                 ∃ e, e ∈ es ∧ links ns e ∧ source e = s ∧ target e = t) as Hpar.
  { intros s t. rewrite assemble_parent.
    destruct (last _) as [e|] eqn:He; [|done]. intros [= <-].
    apply last_filter_elem in He as (He & Hl & Ht). by exists e. }
  assert (∀ p t, child (node_map (assemble ns es)) p t →
                 ∃ e, e ∈ es ∧ links ns e ∧ source e = p ∧ target e = t) as Hch.
  { intros p t. unfold child. rewrite assemble_children.
    intros (e & -> & [[Hl Hs] He]%list_elem_of_filter)%list_elem_of_fmap.
    by exists e. }
  split_and!.
  - intros s t (e & He & Hl & <- & <-)%Hpar. split_and!.
    + unfold child. rewrite assemble_children. apply list_elem_of_fmap.
      exists e. split; [done|]. by apply list_elem_of_filter.
    + rewrite assemble_keys. apply build_node_map_keys, Hl.
    + rewrite assemble_keys. apply build_node_map_keys, Hl.
  - intros t. split.
    + intros [s Hs]. exists s. destruct (Hpar s t Hs) as (e & He & Hl & <- & <-).
      unfold child. rewrite assemble_children. apply list_elem_of_fmap.
      exists e. split; [done|]. by apply list_elem_of_filter.
    + intros [p Hp]. by eapply child_has_parent.
  - intros p t (e & He & Hl & <- & <-)%Hch.
    rewrite assemble_keys. apply build_node_map_keys, Hl.
Qed.

(** ** The roots (lines 131-133) *)

(** X3: the roots are parentless keys of the node map, each listed once;
    without a parentless [package] node they are all the parentless nodes;
    and the hierarchy has no root at all exactly when every node has a
    recorded parent. *)
Theorem roots_shape (ns : list Node) (es : list Edge) :
  let f := assemble ns es in
  NoDup (roots f)
  ∧ (∀ r, r ∈ roots f → r ∈ dict_keys (node_map f) ∧ parent f !! r = None)
  ∧ (package_roots f = [] → roots f = parentless f)
  ∧ (roots f = [] ↔ ∀ k, k ∈ dict_keys (node_map f) → is_Some (parent f !! k)).
Proof.
  cbn zeta. set (f := assemble ns es).
  assert (NoDup (parentless f)) as Hnd.
  { apply NoDup_filter. subst f. rewrite assemble_keys. apply build_node_map_NoDup. }
  assert (∀ r, r ∈ parentless f ↔ r ∈ dict_keys (node_map f) ∧ parent f !! r = None)
    as Hpl.
  { intros r. unfold parentless. rewrite list_elem_of_filter. tauto. }
  split_and!.
  - unfold roots. destruct (package_roots f) as [|r l] eqn:E; [done|].
    rewrite <- E. by apply NoDup_filter.
  - intros r Hr%roots_parentless. by apply Hpl.
  - unfold roots. by intros ->.
  - split.
    + intros Hroots k Hk. destruct (parent f !! k) eqn:Hp; [done|].
      assert (k ∈ parentless f) as Hin by by apply Hpl.
      unfold roots in Hroots. destruct (package_roots f) eqn:E; [|done].
      rewrite Hroots in Hin. by apply elem_of_nil in Hin.
    + intros Hall. destruct (roots f) as [|r l] eqn:E; [done|].
      assert (r ∈ roots f) as Hr by (rewrite E; by left).
      apply roots_parentless, Hpl in Hr as [Hk Hp].
      destruct (Hall r Hk) as [? ?]. congruence.
Qed.

(** ** The registry over a whole traversal (lines 30, 43-115) *)

(** X4: in the nodes a traversal accumulates, each of the five [seen] spaces
    has pairwise distinct ids, and [seen[k]] is exactly the set of ids of
    the records of space [k]: nothing is registered without a record, and
    no record is appended without being registered. *)
Theorem registry_exact_per_space `{OsPath}
    (parse : string → option CompilationUnit)
    (walk : list (string * list string)) (k : SeenKey) :
  let g := traverse parse walk in
  NoDup (n_id <$> space k (nodes g))
  ∧ (∀ x, x ∈ seen_get k (seen g) ↔ x ∈ n_id <$> space k (nodes g))
  ∧ (∀ i j n m,
       nodes g !! i = Some n → nodes g !! j = Some m →
       key_of (n_type n) = k → key_of (n_type m) = k →
       n_id n = n_id m → i = j).
Proof.
  cbn zeta. destruct (traverse_registry_ok parse walk) as [Hnd Hc Hs].
  split_and!.
  - apply Hnd.
  - intros x. rewrite list_elem_of_fmap. split.
    + intros (n & Hn & <- & Hk)%Hs. exists n. split; [done|].
      by apply list_elem_of_filter.
    + intros (n & -> & [Hk Hn]%list_elem_of_filter). rewrite <- Hk. by apply Hc.
  - intros i j n m Hi Hj Hn Hm Hid.
    eapply (NoDup_filter_fmap_lookup n_id (λ n, key_of (n_type n) = k));
      [apply (Hnd k) | exact Hi | exact Hj | done | done | done].
Qed.

(** ** The aggregate forest of a traversal (lines 51, 73, 108, 116, 125-130) *)

Lemma filter_ext_elem {A} (P Q : A → Prop) `{∀ x, Decision (P x)}
    `{∀ x, Decision (Q x)} (l : list A) :
  (∀ x, x ∈ l → P x ↔ Q x) → filter P l = filter Q l.
Proof.
  induction l as [|a l IH]; intros Hext; [done|].
  rewrite !filter_cons, IH by (intros x Hx; apply Hext; by right).
  destruct (decide (P a)) as [HP|HP], (decide (Q a)) as [HQ|HQ]; try done.
  - exfalso. apply HQ, Hext; [by left | done].
  - exfalso. apply HP, Hext; [by left | done].
Qed.

(** X5: on the graph a traversal builds the guard of line 128 never skips
    an edge: both ends of every [contains] edge are keys of the node map, so
    the [children] list of a node is, in emission order, the targets of all
    the [contains] edges that leave it, and the recorded parent of a node is
    the source of the last [contains] edge that targets it. *)
Theorem aggregate_forest_uses_every_contains `{OsPath}
    (parse : string → option CompilationUnit)
    (walk : list (string * list string)) :
  let g := traverse parse walk in
  let f := assemble (nodes g) (edges g) in
  (∀ e, e ∈ edges g → etype e = EContains →
        source e ∈ dict_keys (node_map f) ∧ target e ∈ dict_keys (node_map f))
  ∧ (∀ s, children_of (node_map f) s =
          target <$> filter (λ e, etype e = EContains ∧ source e = s) (edges g))
  ∧ (∀ t, parent f !! t =
          source <$> last (filter (λ e, etype e = EContains ∧ target e = t) (edges g))).
Proof.
  cbn zeta. destruct (traverse_well_built parse walk) as [_ Hcl].
  assert (∀ e, e ∈ edges (traverse parse walk) →
               links (nodes (traverse parse walk)) e ↔ etype e = EContains) as Hl.
  { intros e He. unfold links. split; [tauto|]. intros Hty.
    destruct (Hcl e He Hty). done. }
  split_and!.
  - intros e He Hty. rewrite assemble_keys, !build_node_map_keys. by apply Hcl.
  - intros s. rewrite assemble_children. f_equal.
    apply filter_ext_elem. intros e He. by rewrite (Hl e He).
  - intros t. rewrite assemble_parent. do 2 f_equal.
    apply filter_ext_elem. intros e He. by rewrite (Hl e He).
Qed.

(** ** Grouping the nodes by module key (lines 175-178, 189) *)

Section Grouping.
Context `{OsPath}.

Lemma module_nodes_snoc src_dir ns n k :
  module_nodes src_dir (ns ++ [n]) k =
    module_nodes src_dir ns k ++ (if decide (_module_id src_dir n = k) then [n] else []).
Proof. unfold module_nodes. by rewrite filter_app, filter_cons, filter_nil. Qed.

Lemma top_pkg_map_keys_order src_dir ns :
  dict_keys (top_pkg_map src_dir ns) = first_occurrences (_module_id src_dir <$> ns).
Proof.
  induction ns as [|n ns IH] using rev_ind; [done|].
  rewrite top_pkg_map_snoc, setdefault_append_keys, fmap_app.
  change (_module_id src_dir <$> [n]) with [_module_id src_dir n].
  by rewrite first_occurrences_snoc, IH.
Qed.

(** The list kept under a module key is the list of the ids of the module's
    nodes, in node order; a key without nodes is absent. *)
Lemma top_pkg_map_get src_dir ns k :
  dict_get k (top_pkg_map src_dir ns) =
    match n_id <$> module_nodes src_dir ns k with
    | [] => None
    | ids => Some ids
    end.
Proof.
  revert k. induction ns as [|n ns IH] using rev_ind; intros k; [done|].
  rewrite top_pkg_map_snoc, module_nodes_snoc, fmap_app.
  set (md := _module_id src_dir n). set (d := top_pkg_map src_dir ns) in *.
  assert (md ∈ dict_keys d ↔ n_id <$> module_nodes src_dir ns md ≠ []) as Hmem.
  { rewrite <- dict_get_is_Some, IH.
    destruct (n_id <$> module_nodes src_dir ns md);
      split; (done || by eauto || by intros [? ?]). }
  unfold setdefault_append, dict_mem.
  destruct (decide (md = k)) as [<-|Hne].
  - change (n_id <$> [n]) with [n_id n].
    destruct (decide (md ∈ dict_keys d)) as [Hin|Hin].
    + rewrite bool_decide_eq_true_2 by done.
      rewrite dict_get_alter, decide_True, IH by done.
      apply Hmem in Hin. by destruct (n_id <$> module_nodes src_dir ns md).
    + rewrite bool_decide_eq_false_2 by done.
      rewrite dict_get_set, decide_True by done.
      destruct (n_id <$> module_nodes src_dir ns md) as [|x l] eqn:E; [done|].
      exfalso. apply Hin, Hmem. done.
  - rewrite fmap_nil, app_nil_r.
    destruct (decide (md ∈ dict_keys d)) as [Hin|Hin].
    + rewrite bool_decide_eq_true_2 by done.
      rewrite dict_get_alter, decide_False by congruence. apply IH.
    + rewrite bool_decide_eq_false_2 by done.
      rewrite dict_get_set, decide_False by congruence. apply IH.
Qed.

Lemma dict_get_elem {V} (d : list (string * V)) k v :
  NoDup (dict_keys d) → (k, v) ∈ d → dict_get k d = Some v.
Proof.
  unfold dict_keys. induction d as [|[k' v'] d IH]; intros Hnd Hin.
  - by apply elem_of_nil in Hin.
  - rewrite fmap_cons in Hnd. apply NoDup_cons in Hnd as [Hnin Hnd].
    cbn [dict_get]. apply elem_of_cons in Hin as [[= -> ->] | Hin].
    + by rewrite decide_True.
    + rewrite decide_False; [by apply IH|].
      intros ->. apply Hnin. apply list_elem_of_fmap. by exists (k', v).
Qed.

(** X6: [top_pkg_map] groups the node ids by module key: its keys are the
    module keys of the nodes, each once, in the order of their first
    occurrence, and the list under a key is the list of the ids of the nodes
    that resolve to it, in node order (never empty).  The [pkg_ids] that the
    module loop receives and ignores are thus the ids of the [module_nodes]
    it recomputes. *)
Theorem top_pkg_map_groups (src_dir : string) (ns : list Node) :
  dict_keys (top_pkg_map src_dir ns) = first_occurrences (_module_id src_dir <$> ns)
  ∧ NoDup (dict_keys (top_pkg_map src_dir ns))
  ∧ (∀ top_pkg pkg_ids,
       (top_pkg, pkg_ids) ∈ top_pkg_map src_dir ns →
       pkg_ids = n_id <$> module_nodes src_dir ns top_pkg ∧ pkg_ids ≠ []).
Proof.
  split_and!; [apply top_pkg_map_keys_order | apply top_pkg_map_NoDup |].
  intros k ids Hin.
  apply dict_get_elem in Hin; [|apply top_pkg_map_NoDup].
  rewrite top_pkg_map_get in Hin.
  destruct (n_id <$> module_nodes src_dir ns k) as [|x l]; [done|].
  by injection Hin as <-.
Qed.
End Grouping.

(** ** The modular export as a whole (lines 137-222) *)

#[global] Instance str_le_total : Total str_le.
Proof. intros a b. apply String.leb_total. Qed.

(** X7: with an output target that does not end in [.json], [main] first
    creates the output directory, the target without its trailing
    separators.  When nothing is left of the target (the empty string, [/])
    that fails: [FileNotFoundError] is raised and nothing is written.
    Otherwise no statement of [main] raises; it writes, after what was
    there, one file per module key, in the order in which the keys first
    occur among the nodes, and then [index.json], which lists every module
    key exactly once in ascending order. *)
Theorem modular_export_writes_modules_then_index `{OsPath}
    (parse : string → option CompilationUnit)
    (os_walk : string → list (string * list string))
    (src_dir output_file : string) (fs : Files) :
  endswith ".json" output_file = false →
  let src := os_abspath src_dir in
  let g := traverse parse (os_walk src) in
  let out_dir := rstrip os_sep output_file in
  let items := top_pkg_map src (nodes g) in
  (out_dir = "" →
   main parse os_walk src_dir output_file fs = (fs, Raise (FileNotFoundError "")))
  ∧ (out_dir ≠ "" →
     ∃ index,
       main parse os_walk src_dir output_file fs
       = (fs ++ (module_file src out_dir (nodes g) (edges g) <$> items)
             ++ [(os_join out_dir "index.json", IndexDoc index)],
          Ok tt)
       ∧ dict_keys items = first_occurrences (_module_id src <$> nodes g)
       ∧ Sorted str_le index
       ∧ index ≡ₚ dict_keys items
       ∧ NoDup index).
Proof.
  intros Hdir. cbn zeta. split.
  - intros Hout. by apply main_modular_no_directory.
  - intros Hout. eexists. split_and!.
    + by apply main_modular_ok.
    + apply top_pkg_map_keys_order.
    + apply Sorted_merge_sort. apply _.
    + apply merge_sort_Permutation.
    + unfold sorted. rewrite merge_sort_Permutation. apply top_pkg_map_NoDup.
Qed.

(** X7 at work: the tree of the specification, exported to the directory
    [out], and to the target [/], of which nothing is left. *)
Lemma modular_export_of_acme :
  (main acme_parse acme_walk "/src" "out" []).2 = Ok tt
  ∧ (main acme_parse acme_walk "/src" "out" []).1.*1
    = ["out/com.json"; "out/root.json"; "out/index.json"]
  ∧ main acme_parse acme_walk "/src" "/" [] = ([], Raise (FileNotFoundError "")).
Proof.
  destruct (modular_export_writes_modules_then_index acme_parse acme_walk
              "/src" "out" []) as [_ Hout]; [reflexivity|].
  destruct Hout as (index & Heq & _); [discriminate|].
  destruct (modular_export_writes_modules_then_index acme_parse acme_walk
              "/src" "/" []) as [Hnone _]; [reflexivity|].
  rewrite Heq. split_and!; [reflexivity | vm_compute; reflexivity |].
  apply Hnone. reflexivity.
Defined.

(** ** The command line (lines 228-231) *)

(** X8: run with no output argument, the script takes the default target
    [knowledge_graph.json] and therefore always ends in [NameError], leaving
    an empty file of that name, whatever the source directory holds. *)
Theorem script_default_target_raises `{OsPath}
    (parse : string → option CompilationUnit)
    (os_walk : string → list (string * list string))
    (argv : list string) (fs : Files) :
  List.length argv ≤ 2 →
  script parse os_walk argv fs
  = (fs ++ [("knowledge_graph.json", EmptyDoc)], Raise (NameError "result")).
Proof.
  intros Hlen. unfold script.
  rewrite (decide_False (P := 2 < List.length argv)) by lia.
  by apply main_json_target.
Qed.

(** X8 at work: [python3 graph_generator.py /src]. *)
Lemma script_with_source_only :
  script acme_parse acme_walk ["graph_generator.py"; "/src"] []
  = ([("knowledge_graph.json", EmptyDoc)], Raise (NameError "result")).
Proof.
  apply (script_default_target_raises acme_parse acme_walk
           ["graph_generator.py"; "/src"] []).
  cbn. lia.
Defined.

(** ** The edge list of a module (lines 192-195, 207) *)

(** X9: the relation list written for a module is the aggregate relation
    list restricted, in the same order, to the edges that have both ends
    among the module's node ids; the module's [contains] edges likewise all
    join ids of the module, so its hierarchy never reaches outside it. *)
Theorem module_edges_restrict `{OsPath} (src_dir : string) (ns : list Node)
    (es : list Edge) (top_pkg : string) :
  let ids := module_node_ids src_dir ns top_pkg in
  let mes := module_edges src_dir ns es top_pkg in
  rels mes = filter (λ e, source e ∈ ids ∧ target e ∈ ids) (rels es)
  ∧ rels mes `sublist_of` rels es
  ∧ (∀ p c, child (node_map (assemble (module_nodes src_dir ns top_pkg) mes)) p c →
            p ∈ ids ∧ c ∈ ids).
Proof.
  cbn zeta.
  assert (rels (module_edges src_dir ns es top_pkg)
          = filter (λ e, source e ∈ module_node_ids src_dir ns top_pkg
                         ∧ target e ∈ module_node_ids src_dir ns top_pkg)
                   (rels es)) as Heq.
  { unfold rels, module_edges. rewrite !list_filter_filter.
    apply list_filter_iff. intros e. tauto. }
  split_and!.
  - exact Heq.
  - rewrite Heq. apply sublist_filter.
  - intros p c. unfold child. rewrite assemble_children.
    intros (e & -> & [[(_ & Hs & Ht) <-] _]%list_elem_of_filter)%list_elem_of_fmap.
    unfold module_node_ids. by rewrite !elem_of_list_to_set.
Qed.

(** ** The shape of the records (lines 44-114) *)

Ltac built_step :=
  first [ assumption
        | apply add_edge_records
        | apply append_unseen_records;
          [first [ apply built_package | apply built_stub; by eauto
                 | apply built_field | apply built_method | apply built_class ] | ]
        | apply fold_left_inv; [intros ? ? ? | ] ].

Lemma member_step_built fqcn g m :
  all_records built g → all_records built (member_step fqcn g m).
Proof.
  intros. unfold member_step. destruct m as [tname ds | name ps rt body invs |].
  - unfold field_step. repeat built_step.
  - destruct body; unfold call_step; repeat built_step.
  - done.
Qed.

Lemma type_step_built pkg path g cls :
  all_records built g → all_records built (type_step pkg path g cls).
Proof.
  intros Hg. unfold type_step.
  apply fold_left_inv; [intros; by apply member_step_built|].
  unfold implements_step. apply fold_left_inv; [intros; repeat built_step|].
  unfold extends_step. destruct (td_extends cls); repeat built_step.
Qed.

Section TraversalBuilt.
Context `{OsPath}.
Variable parse : string → option CompilationUnit.

Lemma file_step_built root g fname :
  all_records built g → all_records built (file_step parse root g fname).
Proof.
  intros. unfold file_step. destruct (endswith ".java" fname) eqn:Hjava; [|done].
  cbn [negb]. destruct (parse_java_file parse _) as [[pkg imports] types].
  apply fold_left_inv; [intros; by apply type_step_built|].
  unfold import_step. apply fold_left_inv; [intros; repeat built_step|].
  assert (all_records built
            (append_unseen Kfile (file_node (os_join root fname) fname) g)) as Hg1.
  { apply append_unseen_records; [by apply built_file | done]. }
  unfold package_step. destruct pkg as [p|]; [destruct (truthy p)|];
    repeat built_step.
Qed.

Lemma traverse_built walk : all_records built (traverse parse walk).
Proof.
  unfold traverse, dir_step. apply fold_left_inv.
  - intros. apply fold_left_inv; [intros; by apply file_step_built | done].
  - by intros n ?%elem_of_nil.
Qed.

(** X10: the id rules of the records a traversal accumulates.  A [file]
    record carries its id as ["path"] and a name ending in [.java]; a
    [package] record is named by its id; the id of a [field] record is
    [class + "." + name]; the id of a [method] record is
    [class + "." + signature], the signature being the name followed by the
    comma-joined parameter type names in parentheses; and [file], [package],
    [field] and [method] records carry no ["package"] and no ["file"]
    entry. *)
Theorem record_id_rules (walk : list (string * list string)) (n : Node) :
  n ∈ nodes (traverse parse walk) →
  (n_type n = TFile →
     n_path n = Some (n_id n) ∧ endswith ".java" (n_name n) = true)
  ∧ (n_type n = TPackage → n_name n = n_id n ∧ n_path n = None)
  ∧ (n_type n = TField →
       ∃ c, n_class n = Some c ∧ n_id n = c +:+ "." +:+ n_name n
            ∧ is_Some (n_datatype n) ∧ n_path n = None)
  ∧ (n_type n = TMethod →
       ∃ c params,
         n_class n = Some c
         ∧ n_signature n
           = Some (n_name n +:+ "(" +:+ String.concat "," params +:+ ")")
         ∧ n_id n = c +:+ "." +:+ n_name n +:+ "(" +:+ String.concat "," params +:+ ")"
         ∧ is_Some (n_return_type n) ∧ n_path n = None)
  ∧ (n_type n ≠ TClass → n_package n = None ∧ n_file n = None).
Proof.
  intros Hn.
  destruct (traverse_built walk n Hn)
    as [path fname Hj | p | id name t Ht | fqcn d tname
       | fqcn name params rt | pkg cls_name path cls]; cbn.
  - split_and!; intros Hty; try discriminate Hty; done.
  - split_and!; intros Hty; try discriminate Hty; done.
  - destruct Ht as [-> | ->]; split_and!; intros Hty;
      try discriminate Hty; done.
  - split_and!; intros Hty; try discriminate Hty; [|done].
    exists fqcn. split_and!; eauto.
  - split_and!; intros Hty; try discriminate Hty; [|done].
    exists fqcn, params. split_and!; eauto.
  - split_and!; intros Hty; try discriminate Hty; done.
Qed.
End TraversalBuilt.

(** X10 at work: the method record of the tree of the specification. *)
Lemma record_id_rules_of_run :
  ∃ c params,
    n_class (method_node "com.acme.Foo.run()" "run" "run()" "com.acme.Foo" "void")
    = Some c
    ∧ "com.acme.Foo.run()" = c +:+ "." +:+ "run" +:+ "(" +:+ String.concat "," params +:+ ")".
Proof.
  destruct (record_id_rules acme_parse (acme_walk "/src")
              (method_node "com.acme.Foo.run()" "run" "run()" "com.acme.Foo" "void"))
    as (_ & _ & _ & Hm & _).
  - apply (bool_decide_unpack _). vm_compute. exact I.
  - destruct (Hm eq_refl) as (c & params & Hc & _ & Hid & _).
    exists c, params. split; [exact Hc | exact Hid].
Defined.

(** ** The module key of members and stubs (lines 152-172) *)

(** X11: in the nodes a traversal accumulates, every [method] record, every
    [field] record and every stub synthesised for an inherited name (a
    [class] or [interface] record without ["file"] entry) resolves to the
    module key ["root"], whatever the package of the class it belongs to;
    the record of a declared type with a non-empty package resolves to the
    first dotted segment of the package. *)
Theorem members_and_stubs_resolve_to_root `{OsPath}
    (parse : string → option CompilationUnit)
    (walk : list (string * list string)) (src_dir : string) (n : Node) :
  n ∈ nodes (traverse parse walk) →
  (n_type n = TMethod ∨ n_type n = TField
   ∨ ((n_type n = TClass ∨ n_type n = TInterface) ∧ n_file n = None) →
   _module_id src_dir n = "root")
  ∧ (∀ P, is_Some (n_file n) → n_package n = Some P → P ≠ "" →
          _module_id src_dir n = split_first "." P).
Proof.
  intros Hn.
  destruct (traverse_built parse walk n Hn)
    as [path fname Hj | p | id name t Ht | fqcn d tname
       | fqcn name params rt | pkg cls_name path cls].
  - split; [intros [Hty | [Hty | [[Hty | Hty] _]]]; discriminate Hty|].
    by intros P [? ?].
  - split; [intros [Hty | [Hty | [[Hty | Hty] _]]]; discriminate Hty|].
    by intros P [? ?].
  - split; [intros _; by destruct Ht as [-> | ->] | by intros P [? ?]].
  - split; [done | by intros P [? ?]].
  - split; [done | by intros P [? ?]].
  - split; [intros [Hty | [Hty | [_ Hf]]]; discriminate|].
    intros P _ HP Hne. unfold _module_id. cbn in *. subst pkg. cbn.
    assert (truthy P = true) as -> by by apply truthy_spec. done.
Qed.

(** X11 at work: the field [x] of [com.acme.Foo] is in module [root]. *)
Lemma field_of_acme_in_root :
  _module_id "/src" (field_node "com.acme.Foo.x" "x" "int" "com.acme.Foo") = "root".
Proof.
  destruct (members_and_stubs_resolve_to_root acme_parse (acme_walk "/src") "/src"
              (field_node "com.acme.Foo.x" "x" "int" "com.acme.Foo")) as [Hroot _].
  - apply (bool_decide_unpack _). vm_compute. exact I.
  - apply Hroot. right. by left.
Defined.

(** ** The ends of the edges (lines 51-121) *)

Lemma registered_grows g g' k x : grows g g' → registered g k x → registered g' k x.
Proof. intros Hg (n & Hn & ?). exists n. split; [by eapply grows_nodes | done]. Qed.

Lemma edge_typed_grows g g' e : grows g g' → edge_typed g e → edge_typed g' e.
Proof.
  intros Hg. unfold edge_typed. destruct (etype e).
  - intros [[??] | [[??] | [[??] | [??]]]];
      [left | right; left | right; right; left | right; right; right];
      split; by eapply registered_grows.
  - intros [??]. split; by eapply registered_grows.
  - intros [??]. split; by eapply registered_grows.
  - intros [??]. split; by eapply registered_grows.
  - by apply registered_grows.
Qed.

Lemma registered_append_unseen k n g :
  key_of (n_type n) = k → registry_ok g →
  registered (append_unseen k n g) k (n_id n).
Proof. apply append_unseen_registered. Qed.

(** The statement pair "register [n], append [e]" keeps the typing when [e]
    is typed once [n] is registered. *)
Lemma register_edge_well_typed k n e g :
  key_of (n_type n) = k → well_typed g →
  edge_typed (append_unseen k n g) e →
  well_typed (add_edge e (append_unseen k n g)).
Proof.
  intros Hk [Hok Hty] He. split.
  - by apply add_edge_registry_ok, append_unseen_registry_ok.
  - intros e' [Hin | ->%list_elem_of_singleton]%elem_of_app.
    + rewrite append_unseen_edges in Hin.
      eapply edge_typed_grows; [|by apply Hty].
      apply grows_add_edge, grows_append_unseen. reflexivity.
    + eapply edge_typed_grows; [|exact He]. apply grows_add_edge. reflexivity.
Qed.

(** A loop whose body keeps the typing as long as [x] is registered in
    space [k]. *)
Lemma fold_left_well_typed {A} (f : Graph → A → Graph) l k x g :
  (∀ g y, grows g (f g y)) →
  (∀ g y, well_typed g → registered g k x → well_typed (f g y)) →
  well_typed g → registered g k x →
  well_typed (fold_left f l g) ∧ registered (fold_left f l g) k x.
Proof.
  intros Hgr Hf. revert g. induction l as [|y l IH]; intros g Hg Hx; [done|].
  cbn. apply IH; [by apply Hf | eapply registered_grows; [apply Hgr | done]].
Qed.

Lemma registered_after_append k' n g k x :
  registered g k x → registered (append_unseen k' n g) k x.
Proof. apply registered_grows, grows_append_unseen. reflexivity. Qed.

Lemma extends_step_well_typed pkg fqcn g p :
  well_typed g → registered g Kclass fqcn →
  well_typed (extends_step pkg fqcn g p).
Proof.
  intros Hg Hx. apply register_edge_well_typed; [done | done |].
  split; [by apply registered_after_append|].
  by apply (registered_append_unseen Kclass (stub_node _ _ TClass)), Hg.
Qed.

Lemma implements_step_well_typed pkg fqcn g i :
  well_typed g → registered g Kclass fqcn →
  well_typed (implements_step pkg fqcn g i).
Proof.
  intros Hg Hx. apply register_edge_well_typed; [done | done |].
  split; [by apply registered_after_append|].
  by apply (registered_append_unseen Kclass (stub_node _ _ TInterface)), Hg.
Qed.

Lemma import_step_well_typed path g imp :
  well_typed g → registered g Kfile path → well_typed (import_step path g imp).
Proof.
  intros Hg Hx. apply register_edge_well_typed; [done | done |].
  split; [by apply registered_after_append|].
  by apply (registered_append_unseen Kpackage (package_node _)), Hg.
Qed.

Lemma call_step_well_typed mid g inv :
  well_typed g → registered g Kmethod mid → well_typed (call_step mid g inv).
Proof.
  intros [Hok Hty] Hx. split; [by apply add_edge_registry_ok|].
  intros e [Hin | ->%list_elem_of_singleton]%elem_of_app.
  - eapply edge_typed_grows; [|by apply Hty]. apply grows_add_edge. reflexivity.
  - eapply registered_grows; [|exact Hx]. apply grows_add_edge. reflexivity.
Qed.

Lemma field_step_well_typed fqcn tname g d :
  well_typed g → registered g Kclass fqcn →
  well_typed (field_step fqcn tname g d).
Proof.
  intros Hg Hx. apply register_edge_well_typed; [done | done |].
  right. right. left. split; [by apply registered_after_append|].
  by apply (registered_append_unseen Kfield (field_node _ _ _ _)), Hg.
Qed.

Lemma member_step_well_typed fqcn g m :
  well_typed g → registered g Kclass fqcn → well_typed (member_step fqcn g m).
Proof.
  intros Hg Hx. unfold member_step.
  destruct m as [tname ds | name ps rt body invs |]; [| |done].
  - apply (fold_left_well_typed (field_step fqcn tname) ds Kclass fqcn);
      [apply field_step_grows | apply field_step_well_typed | done | done].
  - match goal with
    | |- context [add_edge ?e (append_unseen ?k ?n g)] =>
        assert (well_typed (add_edge e (append_unseen k n g))
                ∧ registered (add_edge e (append_unseen k n g)) Kmethod (n_id n))
          as [Hg2 Hm2]
    end.
    { split.
      - apply register_edge_well_typed; [done | done |].
        right. right. right. split; [by apply registered_after_append|].
        by apply (registered_append_unseen Kmethod (method_node _ _ _ _ _)), Hg.
      - eapply registered_grows; [apply grows_add_edge; reflexivity|].
        by apply (registered_append_unseen Kmethod (method_node _ _ _ _ _)), Hg. }
    destruct body; [|done].
    eapply (fold_left_well_typed (call_step _) invs Kmethod);
      [apply call_step_grows | apply call_step_well_typed | done | exact Hm2].
Qed.

Lemma package_step_well_typed pkg path g :
  well_typed g → registered g Kfile path → well_typed (package_step pkg path g).
Proof.
  intros Hg Hx. unfold package_step. destruct pkg as [p|]; [|done].
  destruct (truthy p); [|done].
  apply register_edge_well_typed; [done | done |].
  left. split; [|by apply registered_after_append].
  by apply (registered_append_unseen Kpackage (package_node _)), Hg.
Qed.

Lemma type_step_well_typed pkg path g cls :
  well_typed g → registered g Kfile path → well_typed (type_step pkg path g cls).
Proof.
  intros Hg Hx. unfold type_step.
  set (fqcn := qualify pkg (td_name cls)).
  set (g1 := append_unseen Kclass _ g).
  set (g2 := add_edge _ g1).
  set (g3 := match td_extends cls with
             | NoExtends => g2
             | ExtendsOne parent => extends_step pkg fqcn g2 parent
             | ExtendsList l => fold_left (extends_step pkg fqcn) l g2
             end).
  set (g4 := fold_left (implements_step pkg fqcn) (td_implements cls) g3).
  assert (registered g1 Kclass fqcn) as Hf1.
  { by apply (registered_append_unseen Kclass (class_entry _ _ _ _ _)), Hg. }
  assert (well_typed g2) as Hg2.
  { apply register_edge_well_typed; [done | done |].
    right. left. split; [by apply registered_after_append | done]. }
  assert (registered g2 Kclass fqcn) as Hf2.
  { eapply registered_grows; [apply grows_add_edge; reflexivity | done]. }
  assert (well_typed g3 ∧ registered g3 Kclass fqcn) as [Hg3 Hf3].
  { subst g3. destruct (td_extends cls) as [|q|l].
    - done.
    - split; [by apply extends_step_well_typed|].
      eapply registered_grows; [apply extends_step_grows | done].
    - apply fold_left_well_typed;
        [apply extends_step_grows | intros; by apply extends_step_well_typed
        | done | done]. }
  assert (well_typed g4 ∧ registered g4 Kclass fqcn) as [Hg4 Hf4].
  { apply fold_left_well_typed;
      [apply implements_step_grows | intros; by apply implements_step_well_typed
      | done | done]. }
  apply (fold_left_well_typed (member_step fqcn) (td_body cls) Kclass fqcn);
    [apply member_step_grows | apply member_step_well_typed | done | done].
Qed.

Section TraversalTyped.
Context `{OsPath}.
Variable parse : string → option CompilationUnit.

Lemma file_step_well_typed root g fname :
  well_typed g → well_typed (file_step parse root g fname).
Proof.
  intros Hg. unfold file_step. destruct (negb _); [done|].
  destruct (parse_java_file parse _) as [[pkg imports] types].
  set (path := os_join root fname).
  set (g1 := append_unseen Kfile _ g).
  assert (well_typed g1) as Hg1.
  { destruct Hg as [Hok Hty]. split; [by apply append_unseen_registry_ok|].
    intros e He. subst g1. rewrite append_unseen_edges in He.
    eapply edge_typed_grows; [|by apply Hty].
    apply grows_append_unseen. reflexivity. }
  assert (registered g1 Kfile path) as Hp1.
  { by apply (registered_append_unseen Kfile (file_node _ _)), Hg. }
  set (g2 := package_step pkg path g1).
  assert (well_typed g2) as Hg2 by by apply package_step_well_typed.
  assert (registered g2 Kfile path) as Hp2.
  { eapply registered_grows; [apply package_step_grows | done]. }
  destruct (fold_left_well_typed (import_step path) imports Kfile path g2)
    as [Hg3 Hp3];
    [apply import_step_grows | intros; by apply import_step_well_typed
    | done | done |].
  apply (fold_left_well_typed (type_step pkg path) types Kfile path);
    [apply type_step_grows | apply type_step_well_typed | done | done].
Qed.

Lemma traverse_well_typed walk : well_typed (traverse parse walk).
Proof.
  unfold traverse, dir_step. apply fold_left_inv.
  - intros. apply fold_left_inv; [intros; by apply file_step_well_typed | done].
  - split; [apply empty_graph_registry_ok | by intros e ?%elem_of_nil].
Qed.

(** X12: the ends of every edge of a traversal are typed by the edge: an
    [import] edge leads from a [file] node to a [package] node; an
    [extends] or [implements] edge joins two nodes of the class space; a
    [calls] edge leaves a [method] node (its target need not be a node); a
    [contains] edge leads from a [package] to a [file], from a [file] to a
    class-space node, or from a class-space node to a [field] or a
    [method]. *)
Theorem edges_join_typed_nodes (walk : list (string * list string)) (e : Edge) :
  let g := traverse parse walk in
  let has (t : NodeType → Prop) (x : string) :=
    ∃ n, n ∈ nodes g ∧ n_id n = x ∧ t (n_type n) in
  let class_space t := t = TClass ∨ t = TInterface in
  e ∈ edges g →
  match etype e with
  | EImport => has (eq TFile) (source e) ∧ has (eq TPackage) (target e)
  | EExtends | EImplements =>
      has class_space (source e) ∧ has class_space (target e)
  | ECalls => has (eq TMethod) (source e)
  | EContains =>
      (has (eq TPackage) (source e) ∧ has (eq TFile) (target e))
      ∨ (has (eq TFile) (source e) ∧ has class_space (target e))
      ∨ (has class_space (source e) ∧ has (eq TField) (target e))
      ∨ (has class_space (source e) ∧ has (eq TMethod) (target e))
  end.
Proof.
  cbn zeta. intros He.
  destruct (traverse_well_typed walk) as [_ Hty]. specialize (Hty e He).
  set (g := traverse parse walk) in *.
  assert (∀ x, registered g Kfile x →
               ∃ n, n ∈ nodes g ∧ n_id n = x ∧ TFile = n_type n) as Hfile.
  { intros x (n & Hn & Hid & Hk). exists n. by destruct (n_type n). }
  assert (∀ x, registered g Kpackage x →
               ∃ n, n ∈ nodes g ∧ n_id n = x ∧ TPackage = n_type n) as Hpkg.
  { intros x (n & Hn & Hid & Hk). exists n. by destruct (n_type n). }
  assert (∀ x, registered g Kmethod x →
               ∃ n, n ∈ nodes g ∧ n_id n = x ∧ TMethod = n_type n) as Hmeth.
  { intros x (n & Hn & Hid & Hk). exists n. by destruct (n_type n). }
  assert (∀ x, registered g Kfield x →
               ∃ n, n ∈ nodes g ∧ n_id n = x ∧ TField = n_type n) as Hfld.
  { intros x (n & Hn & Hid & Hk). exists n. by destruct (n_type n). }
  assert (∀ x, registered g Kclass x →
               ∃ n, n ∈ nodes g ∧ n_id n = x
                    ∧ (n_type n = TClass ∨ n_type n = TInterface)) as Hcls.
  { intros x (n & Hn & Hid & Hk). exists n. by rewrite <- key_of_class. }
  unfold edge_typed in Hty. destruct (etype e).
  - destruct Hty as [[??] | [[??] | [[??] | [??]]]];
      [left | right; left | right; right; left | right; right; right];
      split; auto.
  - destruct Hty. split; auto.
  - destruct Hty. split; auto.
  - destruct Hty. split; auto.
  - auto.
Qed.
End TraversalTyped.

(** X12 at work: the [calls] edge of the tree of the specification leaves a
    [method] node. *)
Lemma calls_edge_of_acme_leaves_method :
  ∃ n, n ∈ nodes (traverse acme_parse (acme_walk "/src"))
       ∧ n_id n = "com.acme.Foo.run()" ∧ TMethod = n_type n.
Proof.
  apply (edges_join_typed_nodes acme_parse (acme_walk "/src")
           (mkEdge "com.acme.Foo.run()" "Base.helper" ECalls)).
  apply (bool_decide_unpack _). vm_compute. exact I.
Defined.

(** ** Edges do not depend on the registry (lines 51-121) *)

Lemma edge_additive_id : edge_additive (λ g, g).
Proof. intros g. cbn. by rewrite app_nil_r. Qed.

Lemma edge_additive_compose (f h : Graph → Graph) :
  edge_additive f → edge_additive h → edge_additive (λ g, h (f g)).
Proof.
  intros Hf Hh g. cbn. rewrite (Hh (f g)), (Hh (f empty_graph)), (Hf g).
  by rewrite app_assoc.
Qed.

Lemma edge_additive_add_edge e : edge_additive (add_edge e).
Proof. by intros g. Qed.

Lemma edge_additive_append_unseen k n : edge_additive (append_unseen k n).
Proof. intros g. rewrite !append_unseen_edges. cbn. by rewrite app_nil_r. Qed.

Lemma edge_additive_fold_left {A} (f : Graph → A → Graph) (l : list A) :
  (∀ x, edge_additive (λ g, f g x)) → edge_additive (λ g, fold_left f l g).
Proof.
  intros Hf. induction l as [|x l IH]; [apply edge_additive_id|].
  cbn [fold_left]. apply (edge_additive_compose (λ g, f g x) (λ g, fold_left f l g));
    [apply Hf | exact IH].
Qed.

Lemma edge_additive_register_edge k n e :
  edge_additive (λ g, add_edge e (append_unseen k n g)).
Proof.
  apply (edge_additive_compose (append_unseen k n) (add_edge e));
    [apply edge_additive_append_unseen | apply edge_additive_add_edge].
Qed.

Lemma member_step_edge_additive fqcn m : edge_additive (λ g, member_step fqcn g m).
Proof.
  unfold member_step. destruct m as [tname ds | name ps rt body invs |].
  - apply edge_additive_fold_left. intros d. apply edge_additive_register_edge.
  - destruct body.
    + apply (edge_additive_compose (λ g, add_edge _ (append_unseen _ _ g))
               (λ g, fold_left (call_step _) invs g)).
      * apply edge_additive_register_edge.
      * apply edge_additive_fold_left. intros inv. apply edge_additive_add_edge.
    + apply edge_additive_register_edge.
  - apply edge_additive_id.
Qed.

Lemma type_step_edge_additive pkg path cls :
  edge_additive (λ g, type_step pkg path g cls).
Proof.
  unfold type_step.
  apply (edge_additive_compose
           (λ g, fold_left (implements_step pkg _) (td_implements cls)
                   match td_extends cls with
                   | NoExtends => add_edge _ (append_unseen Kclass _ g)
                   | ExtendsOne parent =>
                       extends_step pkg _ (add_edge _ (append_unseen Kclass _ g)) parent
                   | ExtendsList l =>
                       fold_left (extends_step pkg _) l
                         (add_edge _ (append_unseen Kclass _ g))
                   end)
           (λ g, fold_left (member_step _) (td_body cls) g)).
  - apply (edge_additive_compose
             (λ g, match td_extends cls with
                   | NoExtends => add_edge _ (append_unseen Kclass _ g)
                   | ExtendsOne parent =>
                       extends_step pkg _ (add_edge _ (append_unseen Kclass _ g)) parent
                   | ExtendsList l =>
                       fold_left (extends_step pkg _) l
                         (add_edge _ (append_unseen Kclass _ g))
                   end)
             (λ g, fold_left (implements_step pkg _) (td_implements cls) g)).
    + destruct (td_extends cls) as [|q|l].
      * apply edge_additive_register_edge.
      * apply (edge_additive_compose (λ g, add_edge _ (append_unseen Kclass _ g))
                 (λ g, extends_step pkg _ g q));
          apply edge_additive_register_edge.
      * apply (edge_additive_compose (λ g, add_edge _ (append_unseen Kclass _ g))
                 (λ g, fold_left (extends_step pkg _) l g)).
        -- apply edge_additive_register_edge.
        -- apply edge_additive_fold_left. intros p.
           apply edge_additive_register_edge.
    + apply edge_additive_fold_left. intros i. apply edge_additive_register_edge.
  - apply edge_additive_fold_left. intros m. apply member_step_edge_additive.
Qed.

Lemma package_step_edge_additive pkg path :
  edge_additive (λ g, package_step pkg path g).
Proof.
  unfold package_step. destruct pkg as [p|]; [|apply edge_additive_id].
  destruct (truthy p); [apply edge_additive_register_edge | apply edge_additive_id].
Qed.

Section TraversalEdges.
Context `{OsPath}.
Variable parse : string → option CompilationUnit.

Lemma file_step_edge_additive root fname :
  edge_additive (λ g, file_step parse root g fname).
Proof.
  unfold file_step. destruct (negb _); [apply edge_additive_id|].
  destruct (parse_java_file parse _) as [[pkg imports] types].
  apply (edge_additive_compose
           (λ g, fold_left (import_step _) imports
                   (package_step pkg _ (append_unseen Kfile _ g)))
           (λ g, fold_left (type_step pkg _) types g)).
  - apply (edge_additive_compose
             (λ g, package_step pkg _ (append_unseen Kfile _ g))
             (λ g, fold_left (import_step _) imports g)).
    + apply (edge_additive_compose (append_unseen Kfile _)
               (λ g, package_step pkg _ g));
        [apply edge_additive_append_unseen | apply package_step_edge_additive].
    + apply edge_additive_fold_left. intros imp. apply edge_additive_register_edge.
  - apply edge_additive_fold_left. intros cls. apply type_step_edge_additive.
Qed.

Lemma dir_step_edge_additive entry : edge_additive (λ g, dir_step parse g entry).
Proof.
  unfold dir_step. apply edge_additive_fold_left. intros fname.
  apply file_step_edge_additive.
Qed.

(** X13: edges are appended unconditionally, so the edges a file contributes
    do not depend on what was registered before: visiting a file in any
    state appends the edges it yields in an empty graph, and the edge list of
    a traversal is the concatenation of the edge lists of its parts (a file
    visited twice contributes its edges twice). *)
Theorem edges_independent_of_registry :
  (∀ root fname g,
     edges (file_step parse root g fname)
     = edges g ++ edges (file_step parse root empty_graph fname))
  ∧ (∀ walk1 walk2,
       edges (traverse parse (walk1 ++ walk2))
       = edges (traverse parse walk1) ++ edges (traverse parse walk2)).
Proof.
  split.
  - intros root fname g. apply (file_step_edge_additive root fname).
  - intros walk1 walk2. unfold traverse. rewrite fold_left_app.
    apply (edge_additive_fold_left (dir_step parse) walk2 dir_step_edge_additive).
Qed.
End TraversalEdges.

(** ** The directories visited (lines 33-36) *)

Lemma DirTree_nested_ind (P : DirTree → Prop) :
  (∀ files dirs, Forall (λ d, P d.2) dirs → P (Dir files dirs)) → ∀ t, P t.
Proof.
  intros HP. fix IH 1. intros [files dirs]. apply HP.
  induction dirs as [|[name sub] ds IHds]; constructor; [apply IH | exact IHds].
Qed.

Section Walk.
Context `{OsPath}.

Lemma os_walk_pruned_unfold top files dirs :
  os_walk_pruned top (Dir files dirs) =
    (top, files) ::
    flat_map (λ d, if decide (d.1 ∈ exclude_dirs) then []
                   else os_walk_pruned (os_join top d.1) d.2) dirs.
Proof.
  cbn [os_walk_pruned]. f_equal.
  induction dirs as [|[name sub] ds IH]; [done|].
  cbn [flat_map fst snd]. by rewrite IH.
Qed.

(** X14: the traversal yields exactly the directories that are reached
    from the source directory through names none of which is in
    [exclude_dirs], each under the path joined from those names: nothing
    below [venv], [.venv], [.git], [.github] or [__pycache__] is ever
    visited, at any depth, and nothing else is left out. *)
Theorem walk_skips_excluded_directories (top : string) (t : DirTree)
    (root : string) (files : list string) :
  (root, files) ∈ os_walk_pruned top t ↔
  ∃ names dirs,
    subdir t names (Dir files dirs)
    ∧ Forall (λ name, name ∉ exclude_dirs) names
    ∧ root = fold_left os_join names top.
Proof.
  split.
  - revert top. induction t as [fs ds IH] using DirTree_nested_ind. intros top.
    rewrite os_walk_pruned_unfold.
    intros [[= -> ->] | Hin]%elem_of_cons.
    + exists [], ds. split_and!; [constructor | constructor | done].
    + apply list_elem_of_In, in_flat_map in Hin as ([name sub] & Hd & Hin).
      apply list_elem_of_In in Hd, Hin. cbn [fst snd] in Hin.
      destruct (decide (name ∈ exclude_dirs)) as [Hex|Hex];
        [by apply elem_of_nil in Hin|].
      rewrite Forall_forall in IH.
      destruct (IH (name, sub) Hd _ Hin) as (names & dirs & Hsub & Hall & ->).
      exists (name :: names), dirs.
      split_and!; [by econstructor | by constructor | done].
  - intros (names & dirs & Hsub & Hall & ->). revert top Hall.
    remember (Dir files dirs) as t' eqn:Ht'.
    induction Hsub as [t | fs ds name sub names t' Hd Hsub IH]; intros top Hall.
    + subst t. rewrite os_walk_pruned_unfold. by left.
    + apply Forall_cons in Hall as [Hex Hall].
      rewrite os_walk_pruned_unfold. right.
      apply list_elem_of_In, in_flat_map. exists (name, sub).
      split; [by apply list_elem_of_In|].
      cbn [fst snd]. rewrite decide_False by done.
      apply list_elem_of_In. by apply IH.
Qed.
End Walk.

(** ** What a traversal looks at (lines 22-23, 38-39) *)

Lemma fold_left_ext {A} (f f' : Graph → A → Graph) l g :
  (∀ g x, f g x = f' g x) → fold_left f l g = fold_left f' l g.
Proof.
  intros Hext. revert g. induction l as [|x l IH]; intros g; [done|].
  cbn. by rewrite Hext, IH.
Qed.

Section Relevant.
Context `{OsPath}.
Variable parse : string → option CompilationUnit.

Lemma file_step_stripped root g fname :
  file_step (λ p, strip_other_declarations <$> parse p) root g fname
  = file_step parse root g fname.
Proof.
  unfold file_step, parse_java_file. destruct (negb _); [done|].
  destruct (parse (os_join root fname)) as [cu|]; [|done].
  cbn. rewrite list_filter_filter.
  by rewrite (list_filter_iff _ (λ t, is_class_or_interface t = true))
    by (intros t; tauto).
Qed.

Lemma fold_file_step_only_java root files g :
  fold_left (file_step parse root)
            (filter (λ fname, endswith ".java" fname = true) files) g
  = fold_left (file_step parse root) files g.
Proof.
  revert g. induction files as [|fname files IH]; intros g; [done|].
  rewrite filter_cons. destruct (decide (endswith ".java" fname = true)) as [Hj|Hj].
  - cbn. apply IH.
  - cbn [fold_left]. rewrite IH. f_equal. unfold file_step.
    apply not_true_is_false in Hj. by rewrite Hj.
Qed.

(** X15: a traversal looks at nothing but the files whose name ends in
    [.java] and, in a parsed file, at nothing but the class and interface
    declarations among its type declarations: leaving out all other files
    and all enum and annotation declarations gives the same nodes, the same
    edges and the same registry. *)
Theorem traversal_ignores_other_files_and_declarations
    (walk : list (string * list string)) :
  traverse (λ p, strip_other_declarations <$> parse p) (only_java walk)
  = traverse parse walk.
Proof.
  unfold traverse, only_java.
  generalize empty_graph. induction walk as [|[root files] walk IH]; intros g.
  - done.
  - rewrite fmap_cons. cbn [fold_left]. rewrite IH. f_equal.
    unfold dir_step. cbn [fst snd].
    rewrite (fold_left_ext _ (file_step parse root))
      by (intros; apply file_step_stripped).
    apply fold_file_step_only_java.
Qed.

(** X16: a [.java] file that cannot be read or parsed is not skipped
    altogether: it adds no edge and changes no [seen] space but
    [seen['file']], yet its [file] node is appended like that of any other
    file, unless the path was registered before. *)
Theorem failed_file_adds_only_its_file_node (root fname : string) (g : Graph) :
  endswith ".java" fname = true →
  parse (os_join root fname) = None →
  let path := os_join root fname in
  let g' := file_step parse root g fname in
  edges g' = edges g
  ∧ nodes g' = nodes g ++ (if decide (path ∈ seen_file (seen g)) then []
                           else [file_node path fname])
  ∧ seen_file (seen g') = {[path]} ∪ seen_file (seen g)
  ∧ seen_package (seen g') = seen_package (seen g)
  ∧ seen_class (seen g') = seen_class (seen g)
  ∧ seen_method (seen g') = seen_method (seen g)
  ∧ seen_field (seen g') = seen_field (seen g).
Proof.
  intros Hjava Hparse. cbn zeta. rewrite file_step_parse_failure by done.
  unfold append_unseen. cbn [n_id file_node seen_get].
  destruct (decide (os_join root fname ∈ seen_file (seen g))) as [Hin|Hnin].
  - rewrite app_nil_r. split_and!; try done.
    symmetry. apply (subseteq_union_1_L (C:=gset string)).
    by apply singleton_subseteq_l.
  - done.
Qed.
End Relevant.

(** X16 at work: [Bad.java] of the mixed directory, visited first. *)
Lemma bad_file_of_mixed_directory :
  nodes (file_step mixed_parse "/src/a" empty_graph "Bad.java")
  = [file_node "/src/a/Bad.java" "Bad.java"]
  ∧ edges (file_step mixed_parse "/src/a" empty_graph "Bad.java") = [].
Proof.
  destruct (failed_file_adds_only_its_file_node mixed_parse "/src/a" "Bad.java"
              empty_graph) as (He & Hn & _); [reflexivity | reflexivity |].
  split; [exact Hn | exact He].
Defined.
